(** * Fields of physical variables (core/numerics/fields/fields.py)

    A shallow embedding of the [Field] class and of its three domain
    variants, over an explicit Python heap: field objects and the numpy
    arrays they point to live in two stores, so that two fields holding the
    same array are visible as such. *)

From stdpp Require Import gmap list strings.
From Stdlib Require Import ZArith Lia QArith Qcanon Sorted.

Open Scope Z_scope.

(** ** The Variable interface *)

(** The [type] tag of a variable: "scalar", "vector" or "tensor". *)
Inductive VarKind := KScalar | KVector | KTensor.

Global Instance VarKind_eq_dec : EqDecision VarKind.
Proof. solve_decision. Defined.

(** Modelled from the spec: the Variable hierarchy
    (core/numerics/fields/variables.py) is consumed as an opaque value type
    exposing a [type] tag and the operators [+], [-], [*] (by a scalar),
    unary [-] and [abs]. *)
Class VariableLike (V : Type) := {
  var_type : V → VarKind;
  var_add : V → V → V;
  var_sub : V → V → V;
  var_mul : V → V → V;
  var_neg : V → V;
  var_abs : V → V;
}.

(** ** Python objects, exceptions and the heap *)

(** The exceptions the module raises or lets through; ZeroDivisionError is
    one that a value type may raise from its division.  [NoSuchObject] is
    not a Python exception: it is what the model answers to a reference that
    is not in the heap, which a Python program cannot hold. *)
Inductive exn :=
  TypeError | IndexError | ValueError | ZeroDivisionError | NoSuchObject.

Inductive outcome (A : Type) :=
| Ok (a : A)
| Raise (e : exn).
Arguments Ok {A} a.
Arguments Raise {A} e.

(** The concrete class of a field object ([self.__class__]). *)
Inductive FieldClass := CellField | FaceField | NodeField.

Global Instance FieldClass_eq_dec : EqDecision FieldClass.
Proof. solve_decision. Defined.

Declare Scope py_scope.
Delimit Scope py_scope with py.

(** A computation runs on the heap and either returns or raises; the heap
    it leaves behind is kept in both cases. *)
Definition PyM (St A : Type) : Type := St → outcome A * St.

Definition ret {St A} (a : A) : PyM St A := λ s, (Ok a, s).

Definition bind {St A B} (m : PyM St A) (k : A → PyM St B) : PyM St B :=
  λ s, match m s with
       | (Ok a, s') => k a s'
       | (Raise e, s') => (Raise e, s')
       end.

Definition raise {St A} (e : exn) : PyM St A := λ s, (Raise e, s).

Definition try_except {St A} (m : PyM St A) (handler : exn → PyM St A) : PyM St A :=
  λ s, match m s with
       | (Ok a, s') => (Ok a, s')
       | (Raise e, s') => handler e s'
       end.

Notation "x ← m ; k" := (bind m (λ x, k))
  (at level 20, m at level 100, k at level 200, only parsing) : py_scope.
Notation "m ;; k" := (bind m (λ _, k))
  (at level 100, k at level 200, only parsing, right associativity) : py_scope.
Local Open Scope py_scope.

Fixpoint for_in {St A} (xs : list A) (body : A → PyM St unit) : PyM St unit :=
  match xs with
  | [] => ret tt
  | x :: rest => body x;; for_in rest body
  end.

Fixpoint collect {St A B} (xs : list A) (body : A → PyM St B) : PyM St (list B) :=
  match xs with
  | [] => ret []
  | x :: rest => y ← body x; ys ← collect rest body; ret (y :: ys)
  end.

Definition loc := nat.
Definition ref := nat.

Section Fields.
Context {V : Type} `{VariableLike V}.

(** What a callback may return: a Variable, or anything else ([None], a
    number, ...). *)
Inductive pyobj :=
| PyVariable (v : V)
| PyOther.

(** The attributes of a field object; [_values] is a reference to a numpy
    array. *)
Record FieldObj := mkField {
  cls : FieldClass;
  _num_vars : Z;
  _default : V;
  _values : loc;
}.

(** The Python heap: field objects, numpy arrays, and the log of the calls that
    [for_each] and [at] make to their transform (slot index and argument). *)
Record State := mkState {
  objects : gmap ref FieldObj;
  arrays : gmap loc (list V);
  calls : list (Z * V);
}.

Definition empty_state : State := mkState ∅ ∅ [].

Definition M : Type → Type := PyM State.

Definition lift {A} (e : exn) (o : option A) : M A :=
  match o with Some a => ret a | None => raise e end.

(** *** numpy arrays *)

Definition new_array (vs : list V) : M loc :=
  λ s, let l := fresh (dom (arrays s)) in
       (Ok l, mkState (objects s) (<[l := vs]> (arrays s)) (calls s)).

Definition read_array (l : loc) : M (list V) :=
  λ s, match arrays s !! l with
       | Some vs => (Ok vs, s)
       | None => (Raise NoSuchObject, s)
       end.

Definition write_array (l : loc) (vs : list V) : M unit :=
  λ s, (Ok tt, mkState (objects s) (<[l := vs]> (arrays s)) (calls s)).

(** [np.full(n, fill)]: a fresh array of [n] references to [fill]; a
    negative dimension raises ValueError. *)
Definition np_full (n : Z) (fill : V) : M loc :=
  if n <? 0 then raise ValueError
  else new_array (replicate (Z.to_nat n) fill).

(** Integer indexing of a one-dimensional array: indices in [-n, 0) count
    from the end, anything outside [-n, n) raises IndexError. *)
Definition normalize_index (n : nat) (index : Z) : option nat :=
  if (0 <=? index) && (index <? Z.of_nat n) then Some (Z.to_nat index)
  else if (- Z.of_nat n <=? index) && (index <? 0)
       then Some (Z.to_nat (index + Z.of_nat n))
       else None.

Definition np_getitem (l : loc) (index : Z) : M V :=
  vs ← read_array l;
  i ← lift IndexError (normalize_index (length vs) index);
  lift IndexError (vs !! i).

Definition np_setitem (l : loc) (index : Z) (value : V) : M unit :=
  vs ← read_array l;
  i ← lift IndexError (normalize_index (length vs) index);
  write_array l (<[i := value]> vs).

(** *** Field objects *)

Definition new_object (f : FieldObj) : M ref :=
  λ s, let r := fresh (dom (objects s)) in
       (Ok r, mkState (<[r := f]> (objects s)) (arrays s) (calls s)).

Definition get_object (self : ref) : M FieldObj :=
  λ s, match objects s !! self with
       | Some f => (Ok f, s)
       | None => (Raise NoSuchObject, s)
       end.

Definition set_values (self : ref) (l : loc) : M unit :=
  f ← get_object self;
  λ s, (Ok tt, mkState (<[self := mkField (cls f) (_num_vars f) (_default f) l]> (objects s))
                       (arrays s) (calls s)).

(** [Field.__init__], reached through the constructor of a variant. *)
Definition Field_init (c : FieldClass) (num_vars : Z) (default : V) : M ref :=
  l ← np_full num_vars default;
  new_object (mkField c num_vars default l).

Definition type (f : FieldObj) : VarKind := var_type (_default f).

Definition domain (f : FieldObj) : string :=
  match cls f with
  | CellField => "cell"
  | FaceField => "face"
  | NodeField => "node"
  end.

(** *** Callbacks and loops *)

Inductive pyfunc :=
| Callable (g : V → pyobj)
| NotCallable.

Definition call (g : V → pyobj) (i : Z) (x : V) : M pyobj :=
  λ s, (Ok (g x), mkState (objects s) (arrays s) (calls s ++ [(i, x)])).

Definition range (n : Z) : list Z := Z.of_nat <$> seq 0 (Z.to_nat n).

Definition py_min (xs : list Z) : M Z :=
  match xs with
  | [] => raise ValueError
  | x :: rest => ret (foldl Z.min x rest)
  end.

Definition py_max (xs : list Z) : M Z :=
  match xs with
  | [] => raise ValueError
  | x :: rest => ret (foldl Z.max x rest)
  end.

(** [np.vectorize(g)(values)] without [otypes]: refuses an input of size 0. *)
Definition np_vectorize {B} (g : V → B) (vs : list V) : M (list B) :=
  match vs with
  | [] => raise ValueError
  | _ => ret (g <$> vs)
  end.

(** [np.where(mask)[0]]: the positions of the true entries, ascending. *)
Fixpoint np_where (i : Z) (mask : list bool) : list Z :=
  match mask with
  | [] => []
  | b :: rest => if b then i :: np_where (i + 1) rest else np_where (i + 1) rest
  end.

(** *** Properties and auxiliary methods *)

Definition Field_filter (self : ref) (func : V → bool) : M (list Z) :=
  f ← get_object self;
  vs ← read_array (_values f);
  mask ← np_vectorize func vs;
  ret (np_where 0 mask).

(** The body shared by the loops of [for_each] and [at]:
    [res = func(self._values[i])], written back when it is a Variable of
    the field's type. *)
Definition visit (self : ref) (g : V → pyobj) (i : Z) : M unit :=
  f ← get_object self;
  x ← np_getitem (_values f) i;
  res ← call g i x;
  match res with
  | PyVariable v =>
      if decide (var_type v = type f) then np_setitem (_values f) i v
      else ret tt
  | PyOther => ret tt
  end.

Definition Field_for_each (self : ref) (func : pyfunc) : M unit :=
  match func with
  | NotCallable => raise TypeError
  | Callable g =>
      f ← get_object self;
      for_in (range (_num_vars f)) (visit self g)
  end.

Definition Field_at (self : ref) (indexes : list Z) (func : pyfunc) : M unit :=
  match func with
  | NotCallable => raise TypeError
  | Callable g =>
      min_index ← py_min indexes;
      max_index ← py_max indexes;
      f ← get_object self;
      if (min_index <? 0) || (max_index >=? _num_vars f) then raise IndexError
      else for_in indexes (visit self g)
  end.

Definition Field_check_fields_compatible (self other : ref) : M unit :=
  f ← get_object self;
  o ← get_object other;
  if decide (_num_vars f ≠ _num_vars o) then raise ValueError
  else if decide (type f ≠ type o) then raise TypeError
  else if decide (domain f ≠ domain o) then raise TypeError
  else ret tt.

(** [except (ValueError, TypeError) as e: raise TypeError(...)] *)
Definition reraise_TypeError {A} (e : exn) : M A :=
  match e with
  | ValueError | TypeError => raise TypeError
  | _ => raise e
  end.

(** The argument of [assign] and of the arithmetic operators: a field, a
    Variable, or any other Python object. *)
Inductive operand :=
| OpField (other : ref)
| OpVariable (v : V)
| OpOther.

Definition Field_assign (self : ref) (other : operand) : M unit :=
  match other with
  | OpField o =>
      try_except (Field_check_fields_compatible self o) reraise_TypeError;;
      fo ← get_object o;
      set_values self (_values fo)
  | OpVariable v =>
      f ← get_object self;
      if decide (var_type v ≠ type f) then raise TypeError
      else l ← np_full (_num_vars f) v; set_values self l
  | OpOther => raise TypeError
  end.

(** *** Query methods *)

Definition Field_getitem (self : ref) (index : Z) : M V :=
  f ← get_object self;
  np_getitem (_values f) index.

Definition Field_setitem (self : ref) (index : Z) (value : V) : M unit :=
  f ← get_object self;
  if decide (var_type value ≠ var_type (_default f)) then raise TypeError
  else np_setitem (_values f) index value.

Definition Field_len (self : ref) : M Z :=
  f ← get_object self;
  ret (_num_vars f).

(** *** Arithmetic *)

(** Elementwise binary operator on two arrays, with numpy's broadcasting of
    a one-element array. *)
Definition np_binary (op : V → V → V) (l1 l2 : loc) : M loc :=
  xs ← read_array l1;
  ys ← read_array l2;
  if decide (length xs = length ys) then new_array (zip_with op xs ys)
  else match xs, ys with
       | [x], _ => new_array (op x <$> ys)
       | _, [y] => new_array ((λ x, op x y) <$> xs)
       | _, _ => raise ValueError
       end.

(** Elementwise operator on an array, as [-a], [np.abs(a)] or [a * other]. *)
Definition np_unary (op : V → V) (l : loc) : M loc :=
  xs ← read_array l;
  new_array (op <$> xs).

Definition Field_add (self : ref) (other : operand) : M ref :=
  match other with
  | OpField o =>
      try_except (Field_check_fields_compatible self o) reraise_TypeError;;
      f ← get_object self;
      fo ← get_object o;
      result ← Field_init (cls f) (_num_vars f) (_default f);
      l ← np_binary var_add (_values f) (_values fo);
      set_values result l;;
      ret result
  | OpVariable v =>
      f ← get_object self;
      if decide (var_type v ≠ var_type (_default f)) then raise TypeError
      else
        result ← Field_init (cls f) (_num_vars f) (_default f);
        xs ← read_array (_values f);
        ys ← np_vectorize (λ x, var_add x v) xs;
        l ← new_array ys;
        set_values result l;;
        ret result
  | OpOther => raise TypeError
  end.

Definition Field_sub (self : ref) (other : operand) : M ref :=
  match other with
  | OpField o =>
      try_except (Field_check_fields_compatible self o) reraise_TypeError;;
      f ← get_object self;
      fo ← get_object o;
      result ← Field_init (cls f) (_num_vars f) (_default f);
      l ← np_binary var_sub (_values f) (_values fo);
      set_values result l;;
      ret result
  | OpVariable v =>
      f ← get_object self;
      if decide (var_type v ≠ var_type (_default f)) then raise TypeError
      else
        result ← Field_init (cls f) (_num_vars f) (_default f);
        xs ← read_array (_values f);
        ys ← np_vectorize (λ x, var_sub x v) xs;
        l ← new_array ys;
        set_values result l;;
        ret result
  | OpOther => raise TypeError
  end.

(** [isinstance(other, Scalar)] *)
Definition is_Scalar (other : operand) : option V :=
  match other with
  | OpVariable v => if decide (var_type v = KScalar) then Some v else None
  | _ => None
  end.

Definition Field_mul (self : ref) (other : operand) : M ref :=
  match is_Scalar other with
  | None => raise TypeError
  | Some k =>
      f ← get_object self;
      result ← Field_init (cls f) (_num_vars f) (_default f);
      l ← np_unary (λ x, var_mul x k) (_values f);
      set_values result l;;
      ret result
  end.

Definition Field_neg (self : ref) : M ref :=
  f ← get_object self;
  result ← Field_init (cls f) (_num_vars f) (_default f);
  l ← np_unary var_neg (_values f);
  set_values result l;;
  ret result.

Definition Field_abs (self : ref) : M ref :=
  f ← get_object self;
  result ← Field_init (cls f) (_num_vars f) (_default f);
  l ← np_unary var_abs (_values f);
  set_values result l;;
  ret result.

(** [list(field)]: the generator of [__iter__], run to its end. *)
Definition Field_iter (self : ref) : M (list V) :=
  f ← get_object self;
  collect (range (_num_vars f)) (λ i, np_getitem (_values f) i).

(** *** Callers *)

(** One call of a constructor or of a mutating method. *)
Inductive method_call :=
| CallNew (c : FieldClass) (num_vars : Z) (default : V)
| CallSet (self : ref) (index : Z) (value : V)
| CallForEach (self : ref) (func : pyfunc)
| CallAt (self : ref) (indexes : list Z) (func : pyfunc)
| CallAssign (self : ref) (other : operand).

Definition perform (c : method_call) : M unit :=
  match c with
  | CallNew c num_vars default => Field_init c num_vars default;; ret tt
  | CallSet self index value => Field_setitem self index value
  | CallForEach self func => Field_for_each self func
  | CallAt self indexes func => Field_at self indexes func
  | CallAssign self other => Field_assign self other
  end.

(** The heap after a caller has made the calls in order, going on after a
    call that raised. *)
Definition run_calls (cs : list method_call) (s : State) : State :=
  foldl (λ s c, snd (perform c s)) s cs.

(** *** Properties of heaps *)

(** How many times the call log records the transform applied at slot [i]. *)
Definition visits (i : Z) (log : list (Z * V)) : nat :=
  length (filter (λ c, c.1 = i) log).

(** Kind homogeneity: every value stored in a field has the type of the
    field's default. *)
Definition homogeneous (s : State) : Prop :=
  ∀ r f, objects s !! r = Some f →
    ∃ vs, arrays s !! _values f = Some vs ∧
          Forall (λ v, var_type v = type f) vs.

(** [r] is a field object created between [s] and [s']: nothing that was in
    the heap [s] has been changed, [r] and its array were not in [s], and
    [r] has class [c], count [n], default [d] and values [vals]. *)
Definition new_field (s s' : State) (r : ref) (c : FieldClass) (n : Z) (d : V)
    (vals : list V) : Prop :=
  objects s ⊆ objects s' ∧ arrays s ⊆ arrays s' ∧ calls s' = calls s ∧
  objects s !! r = None ∧
  ∃ l, arrays s !! l = None ∧
       objects s' !! r = Some (mkField c n d l) ∧
       arrays s' !! l = Some vals.

(** What an arithmetic operator on [src] answers: a new field of the class,
    count and default of [src] holding [vals], readable slot by slot, with
    every read of the operands answering as before the call. *)
Definition arith_result (s : State) (operands : list ref) (src : FieldObj)
    (vals : list V) (res : outcome ref * State) : Prop :=
  ∃ r s', res = (Ok r, s') ∧
    new_field s s' r (cls src) (_num_vars src) (_default src) vals ∧
    (∀ a i, a ∈ operands →
       fst (Field_getitem a i s') = fst (Field_getitem a i s)) ∧
    (∀ i v, vals !! i = Some v →
       Field_getitem r (Z.of_nat i) s' = (Ok v, s')).

End Fields.

Arguments pyobj : clear implicits.
Arguments pyfunc : clear implicits.
Arguments operand : clear implicits.
Arguments FieldObj : clear implicits.
Arguments State : clear implicits.
Arguments method_call : clear implicits.

(** ** A concrete Variable hierarchy *)

(** Modelled from the spec: the classes Scalar, Vector and Tensor of
    core/numerics/fields/variables.py, with exact rationals for the
    components; operators act componentwise, and multiplication is by a
    Scalar. *)
Inductive Variable_ :=
| Scalar (x : Qc)
| Vector (x y z : Qc)
| Tensor (m : list Qc).

Definition pointwise (op : Qc → Qc → Qc) (a b : Variable_) : Variable_ :=
  match a, b with
  | Scalar x, Scalar y => Scalar (op x y)
  | Vector x y z, Vector x' y' z' => Vector (op x x') (op y y') (op z z')
  | Tensor m, Tensor m' => Tensor (zip_with op m m')
  | _, _ => a
  end.

Definition componentwise (op : Qc → Qc) (a : Variable_) : Variable_ :=
  match a with
  | Scalar x => Scalar (op x)
  | Vector x y z => Vector (op x) (op y) (op z)
  | Tensor m => Tensor (op <$> m)
  end.

Definition scale (a k : Variable_) : Variable_ :=
  match k with
  | Scalar c => componentwise (λ x, x * c)%Qc a
  | _ => a
  end.

Definition Qc_abs (x : Qc) : Qc := if decide (x < 0)%Qc then (- x)%Qc else x.

Global Instance Variable_like : VariableLike Variable_ := {|
  var_type v :=
    match v with
    | Scalar _ => KScalar
    | Vector _ _ _ => KVector
    | Tensor _ => KTensor
    end;
  var_add := pointwise Qcplus;
  var_sub := pointwise Qcminus;
  var_mul := scale;
  var_neg := componentwise Qcopp;
  var_abs := componentwise Qc_abs;
|}.

(** [Scalar(z)] for an integer literal. *)
Definition scalar (z : Z) : Variable_ := Scalar (Q2Qc (inject_Z z)).

(** The predicate "value > 2" on scalars. *)
Definition greater_than_2 (v : Variable_) : bool :=
  match v with
  | Scalar x => bool_decide (2 < x)%Qc
  | _ => false
  end.

(** The transform [lambda v: v + Scalar(1)]. *)
Definition plus_one (v : Variable_) : pyobj Variable_ :=
  PyVariable (var_add v (scalar 1)).

(** [CellField(n, Scalar(1))] followed by [field[i] = Scalar(i + 1)] for
    every [i]: the field with values [1, 2, ..., n]. *)
Definition counting_field (n : Z) : M ref :=
  (a ← Field_init CellField n (scalar 1);
   for_in (range n) (λ i, Field_setitem a i (scalar (i + 1)));;
   ret a)%py.

(** ** Division, and programs over all the methods *)

(** Modelled from the spec: the operator [/] of a Variable by a Scalar
    (core/numerics/fields/variables.py).  What a division by zero does is
    left to the value type, so the operator either returns or raises. *)
Class VariableDiv (V : Type) := {
  var_div : V → V → outcome V;
}.

(** An operator that may raise, applied slot by slot from the first: the
    first slot on which it raises ends the whole operation with that
    exception. *)
Fixpoint elementwise {A B} (op : A → outcome B) (xs : list A) : outcome (list B) :=
  match xs with
  | [] => Ok []
  | x :: rest =>
      match op x with
      | Raise e => Raise e
      | Ok y =>
          match elementwise op rest with
          | Raise e => Raise e
          | Ok ys => Ok (y :: ys)
          end
      end
  end.

Section MoreFields.
Context {V : Type} `{VariableLike V} `{VariableDiv V}.

Local Open Scope py_scope.

(** [a / other] on an array: a new array of the quotients, unless the
    division of some slot raises. *)
Definition np_divide (l : loc) (k : V) : M loc :=
  xs ← read_array l;
  match elementwise (λ x, var_div x k) xs with
  | Ok ys => new_array ys
  | Raise e => raise e
  end.

Definition Field_truediv (self : ref) (other : operand V) : M ref :=
  match is_Scalar other with
  | None => raise TypeError
  | Some k =>
      f ← get_object self;
      result ← Field_init (cls f) (_num_vars f) (_default f);
      l ← np_divide (_values f) k;
      set_values result l;;
      ret result
  end.

(** One use of an arithmetic operator. *)
Inductive arith_call :=
| CallAdd (self : ref) (other : operand V)
| CallSub (self : ref) (other : operand V)
| CallMul (self : ref) (other : operand V)
| CallDiv (self : ref) (other : operand V)
| CallNeg (self : ref)
| CallAbs (self : ref).

Definition perform_arith (c : arith_call) : M ref :=
  match c with
  | CallAdd self other => Field_add self other
  | CallSub self other => Field_sub self other
  | CallMul self other => Field_mul self other
  | CallDiv self other => Field_truediv self other
  | CallNeg self => Field_neg self
  | CallAbs self => Field_abs self
  end.

Inductive any_call :=
| Mutation (c : method_call V)
| Arithmetic (c : arith_call).

Definition perform_any (c : any_call) : M unit :=
  match c with
  | Mutation c => perform c
  | Arithmetic c => perform_arith c;; ret tt
  end.

(** The heap after a program of constructions, mutations and operator
    uses, going on after a call that raised. *)
Definition run_program (cs : list any_call) (s : State V) : State V :=
  foldl (λ s c, snd (perform_any c s)) s cs.

(** [len(values) == count]: every field object holds an array of as many
    slots as its (non-negative) [_num_vars]. *)
Definition well_formed (s : State V) : Prop :=
  ∀ r f, objects s !! r = Some f →
    0 ≤ _num_vars f ∧
    ∃ vs, arrays s !! _values f = Some vs ∧
          length vs = Z.to_nat (_num_vars f).

(** Every field object of [s] is still there in [s'], with the class, the
    count and the default it had. *)
Definition attributes_kept (s s' : State V) : Prop :=
  ∀ r f, objects s !! r = Some f →
    ∃ f', objects s' !! r = Some f' ∧
          cls f' = cls f ∧ _num_vars f' = _num_vars f ∧ _default f' = _default f.

(** What [for_each] and [at] leave in a slot that held [x]: the transform's
    result when it is a Variable of the field's type, [x] otherwise. *)
Definition write_back (f : FieldObj V) (g : V → pyobj V) (x : V) : V :=
  match g x with
  | PyVariable v => if decide (var_type v = type f) then v else x
  | PyOther => x
  end.

(** Two fields pass [_check_fields_compatible]. *)
Definition compatible (fa fb : FieldObj V) : Prop :=
  _num_vars fa = _num_vars fb ∧ type fa = type fb ∧ cls fa = cls fb.

Global Instance compatible_dec (fa fb : FieldObj V) : Decision (compatible fa fb).
Proof. unfold compatible. apply _. Defined.

End MoreFields.

Arguments arith_call : clear implicits.
Arguments any_call : clear implicits.

Definition Qc_div_by (c x : Qc) : Qc := (x / c)%Qc.

(** Division by [Scalar(0)] raises, as Python's own division does. *)
Global Instance Variable_div : VariableDiv Variable_ := {|
  var_div a k :=
    match k with
    | Scalar c =>
        if (Qnum (this c) =? 0)%Z then Raise ZeroDivisionError
        else Ok (componentwise (Qc_div_by c) a)
    | _ => Ok a
    end;
|}.

(** A plain Python number such as [2.0]: neither a field nor a Variable. *)
Definition plain_number : operand Variable_ := OpOther.

(** ** Running the primitives *)

Section Running.
Context {V : Type} `{VariableLike V}.
Implicit Types (s : State V) (f : FieldObj V) (vs : list V).

Lemma normalize_index_nonneg (n : nat) (index : Z) :
  0 ≤ index < Z.of_nat n → normalize_index n index = Some (Z.to_nat index).
Proof.
  intros Hr. unfold normalize_index.
  destruct (Z.leb_spec 0 index), (Z.ltb_spec index (Z.of_nat n)); simpl; try lia.
  reflexivity.
Qed.

Lemma normalize_index_neg (n : nat) (index : Z) :
  - Z.of_nat n ≤ index < 0 →
  normalize_index n index = Some (Z.to_nat (index + Z.of_nat n)).
Proof.
  intros Hr. unfold normalize_index.
  destruct (Z.leb_spec 0 index), (Z.ltb_spec index (Z.of_nat n)),
    (Z.leb_spec (- Z.of_nat n) index), (Z.ltb_spec index 0); simpl; try lia;
    reflexivity.
Qed.

Lemma normalize_index_None (n : nat) (index : Z) :
  normalize_index n index = None ↔ ¬ (- Z.of_nat n ≤ index < Z.of_nat n).
Proof.
  unfold normalize_index.
  destruct (Z.leb_spec 0 index), (Z.ltb_spec index (Z.of_nat n)),
    (Z.leb_spec (- Z.of_nat n) index), (Z.ltb_spec index 0); simpl;
    split; intros; try discriminate; try lia; reflexivity.
Qed.

Lemma normalize_index_lt (n : nat) (index : Z) (k : nat) :
  normalize_index n index = Some k → (k < n)%nat.
Proof.
  unfold normalize_index.
  destruct (Z.leb_spec 0 index), (Z.ltb_spec index (Z.of_nat n)),
    (Z.leb_spec (- Z.of_nat n) index), (Z.ltb_spec index 0); simpl;
    intros [= <-]; lia.
Qed.

Lemma get_object_run s self f :
  objects s !! self = Some f → get_object self s = (Ok f, s).
Proof. intros Hf. unfold get_object. by rewrite Hf. Qed.

Lemma read_array_run s l vs :
  arrays s !! l = Some vs → read_array l s = (Ok vs, s).
Proof. intros Hl. unfold read_array. by rewrite Hl. Qed.

Lemma np_getitem_run s l vs index :
  arrays s !! l = Some vs →
  np_getitem l index s =
    (match normalize_index (length vs) index with
     | Some k => match vs !! k with Some v => Ok v | None => Raise IndexError end
     | None => Raise IndexError
     end, s).
Proof.
  intros Hl. unfold np_getitem, bind. rewrite (read_array_run _ _ _ Hl).
  destruct (normalize_index _ _) as [k|]; simpl; [|done].
  by destruct (vs !! k).
Qed.

Lemma Field_getitem_run s self f vs index :
  objects s !! self = Some f → arrays s !! _values f = Some vs →
  Field_getitem self index s =
    (match normalize_index (length vs) index with
     | Some k => match vs !! k with Some v => Ok v | None => Raise IndexError end
     | None => Raise IndexError
     end, s).
Proof.
  intros Hf Hl. unfold Field_getitem, bind. rewrite (get_object_run _ _ _ Hf).
  by apply np_getitem_run.
Qed.

Lemma fresh_array s : arrays s !! fresh (dom (arrays s)) = None.
Proof. apply not_elem_of_dom, is_fresh. Qed.

Lemma fresh_object s : objects s !! fresh (dom (objects s)) = None.
Proof. apply not_elem_of_dom, is_fresh. Qed.

End Running.

(** ** Construction *)

Section Construction.
Context {V : Type} `{VariableLike V}.
Implicit Types (s : State V) (f : FieldObj V) (vs : list V).

(** C2, as the code has it: the constructor has no size check of its own.
    A negative count is refused by [np.full] (ValueError); every count
    [n ≥ 0], zero included, gives a new field of length [n] whose slots all
    hold the default. *)
Theorem Field_init_spec (c : FieldClass) (n : Z) (d : V) s :
  (n < 0 → Field_init c n d s = (Raise ValueError, s)) ∧
  (0 ≤ n → ∃ r s',
     Field_init c n d s = (Ok r, s') ∧
     objects s !! r = None ∧
     Field_len r s' = (Ok n, s') ∧
     ∀ i, 0 ≤ i < n → Field_getitem r i s' = (Ok d, s')).
Proof.
  split; intros Hn.
  - unfold Field_init, bind, np_full.
    destruct (Z.ltb_spec n 0); [done | lia].
  - unfold Field_init, bind, np_full.
    destruct (Z.ltb_spec n 0); [lia|]. simpl.
    eexists _, _. split; [reflexivity|]. split; [apply not_elem_of_dom, is_fresh|].
    split.
    + unfold Field_len, bind, get_object. simpl. by rewrite lookup_insert_eq.
    + intros i Hi.
      erewrite Field_getitem_run.
      2: { simpl. apply lookup_insert_eq. }
      2: { simpl. apply lookup_insert_eq. }
      rewrite length_replicate, normalize_index_nonneg by lia.
      rewrite lookup_replicate_2 by lia. done.
Qed.

End Construction.

(** C2 as stated fails at count 0: the constructor returns an (empty) field. *)
Lemma Field_init_zero_count_succeeds :
  ∃ r s', Field_init CellField 0 (scalar 1) empty_state = (Ok r, s') ∧
          Field_len r s' = (Ok 0, s').
Proof. eexists _, _. split; vm_compute; reflexivity. Qed.

Lemma Field_init_spec_witness :
  Field_init CellField (-1) (scalar 1) empty_state = (Raise ValueError, empty_state) ∧
  ∃ r s', Field_init CellField 3 (scalar 1) empty_state = (Ok r, s') ∧
          objects (@empty_state Variable_) !! r = None ∧
          Field_len r s' = (Ok 3, s') ∧
          ∀ i, 0 ≤ i < 3 → Field_getitem r i s' = (Ok (scalar 1), s').
Proof.
  split.
  - apply (proj1 (Field_init_spec CellField (-1) (scalar 1) empty_state)). lia.
  - apply (proj2 (Field_init_spec CellField 3 (scalar 1) empty_state)). lia.
Defined.

(** ** Indexed reads *)

Section Getitem.
Context {V : Type} `{VariableLike V}.
Implicit Types (s : State V) (f : FieldObj V) (vs : list V).

(** C3, as the code has it: [__getitem__] hands the index to numpy, so an
    index fails with IndexError exactly when it is outside [-count, count);
    [get(count)] fails, an index in [0, count) returns the stored value, and
    an index in [-count, 0) returns the value stored at [count + index]. *)
Theorem Field_getitem_spec s (self : ref) f vs (index : Z) :
  objects s !! self = Some f →
  arrays s !! _values f = Some vs →
  0 ≤ _num_vars f →
  length vs = Z.to_nat (_num_vars f) →
  (Field_getitem self index s = (Raise IndexError, s) ↔
     ¬ (- _num_vars f ≤ index < _num_vars f)) ∧
  (0 ≤ index < _num_vars f →
     ∃ v, vs !! Z.to_nat index = Some v ∧
          Field_getitem self index s = (Ok v, s)) ∧
  (- _num_vars f ≤ index < 0 →
     ∃ v, vs !! Z.to_nat (_num_vars f + index) = Some v ∧
          Field_getitem self index s = (Ok v, s)) ∧
  Field_getitem self (_num_vars f) s = (Raise IndexError, s).
Proof.
  intros Hf Hvs Hn Hlen.
  assert (Hrun := λ i, Field_getitem_run s self f vs i Hf Hvs).
  assert (Hcount : Z.of_nat (length vs) = _num_vars f) by lia.
  assert (Hin : ∀ i, 0 ≤ i < _num_vars f →
            ∃ v, vs !! Z.to_nat i = Some v ∧ Field_getitem self i s = (Ok v, s)).
  { intros i Hi. destruct (lookup_lt_is_Some_2 vs (Z.to_nat i)) as [v Hv]; [lia|].
    exists v. split; [done|].
    by rewrite Hrun, normalize_index_nonneg, Hv by lia. }
  assert (Hneg : ∀ i, - _num_vars f ≤ i < 0 →
            ∃ v, vs !! Z.to_nat (_num_vars f + i) = Some v ∧
                 Field_getitem self i s = (Ok v, s)).
  { intros i Hi.
    destruct (lookup_lt_is_Some_2 vs (Z.to_nat (_num_vars f + i))) as [v Hv]; [lia|].
    exists v. split; [done|].
    rewrite Hrun, normalize_index_neg by lia.
    replace (i + Z.of_nat (length vs)) with (_num_vars f + i) by lia.
    by rewrite Hv. }
  assert (Hout : ∀ i, ¬ (- _num_vars f ≤ i < _num_vars f) →
            Field_getitem self i s = (Raise IndexError, s)).
  { intros i Hi. rewrite Hrun.
    destruct (normalize_index _ _) as [k|] eqn:Hk; [|done].
    exfalso. assert (normalize_index (length vs) i ≠ None) as Hc by congruence.
    rewrite normalize_index_None in Hc. lia. }
  split; [|split; [|split]]; auto.
  - split; [|by auto]. intros Hraise Hr.
    destruct (Z.lt_ge_cases index 0).
    + destruct (Hneg index) as (v & _ & Hv); [lia|]. congruence.
    + destruct (Hin index) as (v & _ & Hv); [lia|]. congruence.
  - apply Hout. lia.
Qed.

End Getitem.

(** C3 as stated fails at index -1: on the field [1, 2, 3], [field[-1]]
    returns the last value instead of raising. *)
Lemma Field_getitem_minus_one_succeeds :
  fst ((a ← counting_field 3; Field_getitem a (-1))%py empty_state)
  = Ok (scalar 3).
Proof. vm_compute. reflexivity. Qed.

Lemma Field_getitem_spec_witness :
  let s := snd (counting_field 3 empty_state) in
  let vs := [scalar 1; scalar 2; scalar 3] in
  (Field_getitem 0%nat (-4) s = (Raise IndexError, s) ↔ ¬ (- 3 ≤ -4 < 3)) ∧
  (0 ≤ 1 < 3 → ∃ v, vs !! Z.to_nat 1 = Some v ∧
                    Field_getitem 0%nat 1 s = (Ok v, s)) ∧
  (- 3 ≤ -1 < 0 → ∃ v, vs !! Z.to_nat (3 + -1) = Some v ∧
                       Field_getitem 0%nat (-1) s = (Ok v, s)) ∧
  Field_getitem 0%nat 3 s = (Raise IndexError, s).
Proof.
  intros s vs.
  pose proof (λ i, Field_getitem_spec s 0%nat
             (mkField CellField 3 (scalar 1) 0%nat) vs i
             eq_refl eq_refl ltac:(simpl; lia) eq_refl) as Hspec.
  simpl in Hspec.
  destruct (Hspec (-4)) as (H1 & _ & _ & H4).
  destruct (Hspec 1) as (_ & H2 & _ & _).
  destruct (Hspec (-1)) as (_ & _ & H3 & _).
  exact (conj H1 (conj H2 (conj H3 H4))).
Defined.

(** ** Bulk application at given indices *)

Section At.
Context {V : Type} `{VariableLike V}.
Implicit Types (s : State V) (f : FieldObj V) (vs : list V).

Lemma foldl_min_le (x : Z) (rest : list Z) :
  ∀ y, y ∈ x :: rest → foldl Z.min x rest ≤ y.
Proof.
  revert x. induction rest as [|z rest IH]; intros x y Hy; simpl.
  - apply list_elem_of_singleton in Hy. lia.
  - assert (foldl Z.min (Z.min x z) rest ≤ Z.min x z) as Hm
      by (apply IH; left).
    apply elem_of_cons in Hy as [->|Hy]; [lia|].
    apply elem_of_cons in Hy as [->|Hy]; [lia|].
    apply IH. by right.
Qed.

Lemma foldl_max_ge (x : Z) (rest : list Z) :
  ∀ y, y ∈ x :: rest → y ≤ foldl Z.max x rest.
Proof.
  revert x. induction rest as [|z rest IH]; intros x y Hy; simpl.
  - apply list_elem_of_singleton in Hy. lia.
  - assert (Z.max x z ≤ foldl Z.max (Z.max x z) rest) as Hm
      by (apply IH; left).
    apply elem_of_cons in Hy as [->|Hy]; [lia|].
    apply elem_of_cons in Hy as [->|Hy]; [lia|].
    apply IH. by right.
Qed.

Lemma foldl_min_elem (x : Z) (rest : list Z) : foldl Z.min x rest ∈ x :: rest.
Proof.
  revert x. induction rest as [|z rest IH]; intros x; simpl; [left|].
  specialize (IH (Z.min x z)).
  apply elem_of_cons in IH as [->|IH].
  - destruct (Z.min_spec x z) as [[_ ->]|[_ ->]]; [left | right; left].
  - right. by right.
Qed.

Lemma foldl_max_elem (x : Z) (rest : list Z) : foldl Z.max x rest ∈ x :: rest.
Proof.
  revert x. induction rest as [|z rest IH]; intros x; simpl; [left|].
  specialize (IH (Z.max x z)).
  apply elem_of_cons in IH as [->|IH].
  - destruct (Z.max_spec x z) as [[_ ->]|[_ ->]]; [right; left | left].
  - right. by right.
Qed.

(** C10: with an empty index list, [min(indexes)] raises (ValueError) and
    nothing else happens. *)
Theorem Field_at_empty s (self : ref) (g : V → pyobj V) :
  Field_at self [] (Callable g) s = (Raise ValueError, s).
Proof. reflexivity. Qed.

(** C5: when some supplied index is outside [0, count), [at] raises
    IndexError before the transform is applied to anything: the heap and the
    call log are those it started from. *)
Theorem Field_at_out_of_range s (self : ref) f (indexes : list Z) (g : V → pyobj V) :
  objects s !! self = Some f →
  indexes ≠ [] →
  (∃ i, i ∈ indexes ∧ ¬ (0 ≤ i < _num_vars f)) →
  Field_at self indexes (Callable g) s = (Raise IndexError, s).
Proof.
  intros Hf Hne (i & Hi & Hout).
  destruct indexes as [|x rest]; [done|].
  unfold Field_at, bind. simpl. rewrite (get_object_run _ _ _ Hf).
  pose proof (foldl_min_le x rest i Hi).
  pose proof (foldl_max_ge x rest i Hi).
  destruct (Z.ltb_spec (foldl Z.min x rest) 0); [done|].
  destruct (Z.geb_spec (foldl Z.max x rest) (_num_vars f)); [done|]. lia.
Qed.

End At.

Lemma Field_at_out_of_range_witness :
  let s := snd (counting_field 5 empty_state) in
  Field_at 0%nat [1; 5] (Callable (λ v, PyVariable (var_neg v))) s
  = (Raise IndexError, s).
Proof.
  intros s.
  apply (Field_at_out_of_range s 0%nat (mkField CellField 5 (scalar 1) 0%nat)).
  - reflexivity.
  - discriminate.
  - exists 5. split; [right; left | simpl; lia].
Defined.

(** ** Arithmetic *)

Section Arithmetic.
Context {V : Type} `{VariableLike V}.
Implicit Types (s : State V) (f : FieldObj V) (vs : list V).

Lemma set_values_run s (self : ref) f (l : loc) :
  objects s !! self = Some f →
  set_values self l s =
    (Ok tt, mkState (<[self := mkField (cls f) (_num_vars f) (_default f) l]> (objects s))
                    (arrays s) (calls s)).
Proof. intros Hf. unfold set_values, bind. by rewrite (get_object_run _ _ _ Hf). Qed.

Lemma Field_init_run (c : FieldClass) (n : Z) (d : V) s :
  0 ≤ n →
  Field_init c n d s =
    (Ok (fresh (dom (objects s))),
     mkState (<[fresh (dom (objects s)) := mkField c n d (fresh (dom (arrays s)))]> (objects s))
             (<[fresh (dom (arrays s)) := replicate (Z.to_nat n) d]> (arrays s))
             (calls s)).
Proof.
  intros Hn. unfold Field_init, bind, np_full.
  destruct (Z.ltb_spec n 0); [lia | reflexivity].
Qed.

Lemma check_compatible_run s (a b : ref) fa fb :
  objects s !! a = Some fa → objects s !! b = Some fb →
  _num_vars fa = _num_vars fb → type fa = type fb → domain fa = domain fb →
  Field_check_fields_compatible a b s = (Ok tt, s).
Proof.
  intros Ha Hb Hn Ht Hd. unfold Field_check_fields_compatible, bind.
  rewrite (get_object_run _ _ _ Ha), (get_object_run _ _ _ Hb).
  repeat case_decide; done.
Qed.

Lemma np_binary_run (op : V → V → V) s (l1 l2 : loc) xs ys :
  arrays s !! l1 = Some xs → arrays s !! l2 = Some ys →
  length xs = length ys →
  np_binary op l1 l2 s = new_array (zip_with op xs ys) s.
Proof.
  intros H1 H2 Hlen. unfold np_binary, bind.
  rewrite (read_array_run _ _ _ H1), (read_array_run _ _ _ H2).
  by case_decide.
Qed.

Lemma np_unary_run (op : V → V) s (l : loc) xs :
  arrays s !! l = Some xs → np_unary op l s = new_array (op <$> xs) s.
Proof.
  intros Hl. unfold np_unary, bind. by rewrite (read_array_run _ _ _ Hl).
Qed.

(** The tail shared by the operators: construct [result], compute the new
    array, install it. *)
Lemma result_field_run s (c : FieldClass) (n : Z) (d : V) (X : M loc) vals :
  0 ≤ n →
  (∀ s1, arrays s ⊆ arrays s1 → X s1 = new_array vals s1) →
  ∃ r s',
    (result ← Field_init c n d; l ← X; set_values result l;; ret result) s
      = (Ok r, s') ∧
    new_field s s' r c n d vals.
Proof.
  intros Hn HX. unfold bind at 1. rewrite Field_init_run by done.
  set (r := fresh (dom (objects s))).
  set (l1 := fresh (dom (arrays s))).
  assert (objects s !! r = None) as Hr by apply fresh_object.
  assert (arrays s !! l1 = None) as Hl1 by apply fresh_array.
  assert (arrays s ⊆ <[l1 := replicate (Z.to_nat n) d]> (arrays s)) as Hsub
    by by apply insert_subseteq.
  unfold bind at 1. rewrite HX by done. unfold new_array. simpl.
  set (arrays1 := <[l1 := replicate (Z.to_nat n) d]> (arrays s)) in *.
  set (l2 := fresh (dom arrays1)).
  assert (arrays1 !! l2 = None) as Hl2 by apply not_elem_of_dom, is_fresh.
  unfold bind. erewrite set_values_run by (simpl; apply lookup_insert_eq).
  simpl. eexists _, _. split; [reflexivity|].
  unfold new_field. simpl. rewrite insert_insert_eq.
  split; [by apply insert_subseteq|].
  split; [etrans; [exact Hsub | by apply insert_subseteq]|].
  split; [done|]. split; [done|].
  exists l2. split; [by eapply lookup_weaken_None|].
  by rewrite !lookup_insert_eq.
Qed.

Lemma arith_result_intro s (operands : list ref) (src : FieldObj V) vals
    (X : M loc) :
  0 ≤ _num_vars src →
  (∀ s1, arrays s ⊆ arrays s1 → X s1 = new_array vals s1) →
  (∀ a, a ∈ operands →
     ∃ fa va, objects s !! a = Some fa ∧ arrays s !! _values fa = Some va) →
  arith_result s operands src vals
    ((result ← Field_init (cls src) (_num_vars src) (_default src);
      l ← X; set_values result l;; ret result) s).
Proof.
  intros Hn HX Hops.
  destruct (result_field_run s (cls src) (_num_vars src) (_default src) X vals Hn HX)
    as (r & s' & -> & Hnew).
  exists r, s'. split; [done|]. split; [done|].
  destruct Hnew as (Hobj & Harr & _ & _ & l & _ & Hr & Hl).
  split.
  - intros a i Ha. destruct (Hops a Ha) as (fa & va & Hfa & Hva).
    rewrite (Field_getitem_run s a fa va i Hfa Hva).
    by rewrite (Field_getitem_run s' a fa va i
                  (lookup_weaken _ _ _ _ Hfa Hobj) (lookup_weaken _ _ _ _ Hva Harr)).
  - intros i v Hv.
    rewrite (Field_getitem_run s' r _ vals (Z.of_nat i) Hr Hl).
    apply lookup_lt_Some in Hv as Hi.
    rewrite normalize_index_nonneg, Nat2Z.id, Hv by lia. done.
Qed.

(** C6: on compatible fields [a] and [b], [a + b], [a - b], [-a] and
    [abs(a)] each return a newly constructed field of the class, count and
    default of [a], whose values are the elementwise results; nothing that
    existed before the call is modified, and the operands read as before. *)
Theorem Field_arithmetic_spec s (a b : ref) fa fb va vb :
  objects s !! a = Some fa →
  objects s !! b = Some fb →
  arrays s !! _values fa = Some va →
  arrays s !! _values fb = Some vb →
  0 ≤ _num_vars fa →
  length va = Z.to_nat (_num_vars fa) →
  length vb = Z.to_nat (_num_vars fb) →
  _num_vars fa = _num_vars fb → type fa = type fb → domain fa = domain fb →
  arith_result s [a; b] fa (zip_with var_add va vb) (Field_add a (OpField b) s) ∧
  arith_result s [a; b] fa (zip_with var_sub va vb) (Field_sub a (OpField b) s) ∧
  arith_result s [a] fa (var_neg <$> va) (Field_neg a s) ∧
  arith_result s [a] fa (var_abs <$> va) (Field_abs a s).
Proof.
  intros Ha Hb Hva Hvb Hn Hla Hlb Hcount Htype Hdom.
  assert (∀ x, x ∈ [a; b] →
     ∃ fx vx, objects s !! x = Some fx ∧ arrays s !! _values fx = Some vx) as Hops2.
  { intros x Hx. apply elem_of_cons in Hx as [->|Hx]; [by eauto|].
    apply list_elem_of_singleton in Hx as ->. by eauto. }
  assert (∀ x, x ∈ [a] →
     ∃ fx vx, objects s !! x = Some fx ∧ arrays s !! _values fx = Some vx) as Hops1.
  { intros x Hx. apply list_elem_of_singleton in Hx as ->. by eauto. }
  assert (Hcheck := check_compatible_run s a b fa fb Ha Hb Hcount Htype Hdom).
  repeat split.
  - unfold Field_add, bind at 1, try_except. rewrite Hcheck.
    unfold bind at 1. rewrite (get_object_run _ _ _ Ha).
    unfold bind at 1. rewrite (get_object_run _ _ _ Hb).
    apply arith_result_intro; [done| |done].
    intros s1 Hs1. eapply np_binary_run; [by eapply lookup_weaken..|lia].
  - unfold Field_sub, bind at 1, try_except. rewrite Hcheck.
    unfold bind at 1. rewrite (get_object_run _ _ _ Ha).
    unfold bind at 1. rewrite (get_object_run _ _ _ Hb).
    apply arith_result_intro; [done| |done].
    intros s1 Hs1. eapply np_binary_run; [by eapply lookup_weaken..|lia].
  - unfold Field_neg, bind at 1. rewrite (get_object_run _ _ _ Ha).
    apply arith_result_intro; [done| |done].
    intros s1 Hs1. eapply np_unary_run. by eapply lookup_weaken.
  - unfold Field_abs, bind at 1. rewrite (get_object_run _ _ _ Ha).
    apply arith_result_intro; [done| |done].
    intros s1 Hs1. eapply np_unary_run. by eapply lookup_weaken.
Qed.

End Arithmetic.

Lemma Field_arithmetic_spec_witness :
  let s := snd ((a ← counting_field 3; Field_init CellField 3 (scalar 1))%py
                  empty_state) in
  let va := [scalar 1; scalar 2; scalar 3] in
  let vb := [scalar 1; scalar 1; scalar 1] in
  let fa := mkField CellField 3 (scalar 1) 0%nat in
  arith_result s [0%nat; 1%nat] fa [scalar 2; scalar 3; scalar 4]
    (Field_add 0%nat (OpField 1%nat) s) ∧
  arith_result s [0%nat; 1%nat] fa [scalar 0; scalar 1; scalar 2]
    (Field_sub 0%nat (OpField 1%nat) s) ∧
  arith_result s [0%nat] fa [scalar (-1); scalar (-2); scalar (-3)]
    (Field_neg 0%nat s) ∧
  arith_result s [0%nat] fa va (Field_abs 0%nat s).
Proof.
  intros s va vb fa.
  exact (Field_arithmetic_spec s 0%nat 1%nat fa
           (mkField CellField 3 (scalar 1) 1%nat) va vb
           eq_refl eq_refl eq_refl eq_refl ltac:(simpl; lia)
           eq_refl eq_refl eq_refl eq_refl eq_refl).
Defined.

(** ** Filtering *)

Section Filter.
Context {V : Type} `{VariableLike V}.
Implicit Types (s : State V) (f : FieldObj V) (vs : list V).

Lemma np_where_elem (mask : list bool) (i0 i : Z) :
  i ∈ np_where i0 mask ↔
  ∃ k : nat, i = i0 + Z.of_nat k ∧ mask !! k = Some true.
Proof.
  revert i0. induction mask as [|b mask IH]; intros i0; simpl.
  - split; [by intros ?%elem_of_nil | by intros (k & _ & ?)].
  - assert (i ∈ np_where (i0 + 1) mask ↔
            ∃ k : nat, i = i0 + Z.of_nat (S k) ∧ mask !! k = Some true) as IH'.
    { rewrite IH. split; intros (k & -> & Hk); exists k; split; auto; lia. }
    destruct b; [rewrite elem_of_cons|]; rewrite IH'; split.
    + intros [->|(k & -> & Hk)]; [exists 0%nat | exists (S k)]; split; auto; lia.
    + intros ([|k] & -> & Hk); [left; lia | right; eauto].
    + intros (k & -> & Hk). exists (S k). auto.
    + intros ([|k] & -> & Hk); [done | eauto].
Qed.

Lemma np_where_sorted (mask : list bool) (i0 : Z) :
  StronglySorted Z.lt (np_where i0 mask).
Proof.
  revert i0. induction mask as [|b mask IH]; intros i0; simpl; [constructor|].
  destruct b; [|apply IH].
  constructor; [apply IH|].
  apply Forall_forall. intros i (k & -> & _)%np_where_elem. lia.
Qed.

(** The general part of C7, on a field of positive count. *)
Lemma Field_filter_run s (self : ref) f vs (func : V → bool) :
  objects s !! self = Some f →
  arrays s !! _values f = Some vs →
  0 < _num_vars f →
  length vs = Z.to_nat (_num_vars f) →
  ∃ indices,
    Field_filter self func s = (Ok indices, s) ∧
    StronglySorted Z.lt indices ∧
    ∀ i, i ∈ indices ↔
         0 ≤ i < _num_vars f ∧
         ∃ v, vs !! Z.to_nat i = Some v ∧ func v = true.
Proof.
  intros Hf Hvs Hn Hlen.
  exists (np_where 0 (func <$> vs)). split; [|split].
  - unfold Field_filter, bind.
    rewrite (get_object_run _ _ _ Hf), (read_array_run _ _ _ Hvs).
    destruct vs; [simpl in Hlen; lia | reflexivity].
  - apply np_where_sorted.
  - intros i. rewrite np_where_elem. split.
    + intros (k & -> & Hk). rewrite list_lookup_fmap in Hk.
      destruct (vs !! k) as [v|] eqn:Hv; [|done].
      apply lookup_lt_Some in Hv as Hlt. injection Hk as Hk.
      split; [lia|]. exists v. by rewrite Z.add_0_l, Nat2Z.id.
    + intros (Hi & v & Hv & Hp). exists (Z.to_nat i). split; [lia|].
      by rewrite list_lookup_fmap, Hv; simpl; rewrite Hp.
Qed.

End Filter.

(** C7, as the code has it: on every field of positive count, [filter]
    returns exactly the indices whose stored value satisfies the predicate,
    in ascending order, and leaves the heap as it was; on the scalar field
    [1, 2, 3, 4, 5] with the predicate "value > 2" it returns [2, 3, 4]. *)
Theorem Field_filter_spec :
  (∀ V (HV : VariableLike V) (s : State V) (self : ref) (f : FieldObj V)
     (vs : list V) (func : V → bool),
     objects s !! self = Some f →
     arrays s !! _values f = Some vs →
     0 < _num_vars f →
     length vs = Z.to_nat (_num_vars f) →
     ∃ indices,
       Field_filter self func s = (Ok indices, s) ∧
       StronglySorted Z.lt indices ∧
       ∀ i, i ∈ indices ↔
            0 ≤ i < _num_vars f ∧
            ∃ v, vs !! Z.to_nat i = Some v ∧ func v = true) ∧
  (∃ a s, counting_field 5 empty_state = (Ok a, s) ∧
          Field_iter a s =
            (Ok [scalar 1; scalar 2; scalar 3; scalar 4; scalar 5], s) ∧
          Field_filter a greater_than_2 s = (Ok [2; 3; 4], s)).
Proof.
  split.
  - intros. by eapply Field_filter_run.
  - eexists _, _. split; [|split]; vm_compute; reflexivity.
Qed.

Lemma Field_filter_spec_witness :
  let s := snd (counting_field 5 empty_state) in
  ∃ indices,
    Field_filter 0%nat greater_than_2 s = (Ok indices, s) ∧
    StronglySorted Z.lt indices ∧
    ∀ i, i ∈ indices ↔
         0 ≤ i < 5 ∧
         ∃ v, [scalar 1; scalar 2; scalar 3; scalar 4; scalar 5] !! Z.to_nat i
              = Some v ∧ greater_than_2 v = true.
Proof.
  intros s.
  exact (proj1 Field_filter_spec Variable_ _ s 0%nat
           (mkField CellField 5 (scalar 1) 0%nat)
           [scalar 1; scalar 2; scalar 3; scalar 4; scalar 5] greater_than_2
           eq_refl eq_refl ltac:(simpl; lia) eq_refl).
Defined.

(** C7 as stated fails on a field of count zero, which the constructor
    returns: [np.vectorize] refuses the empty array, so [filter] raises
    ValueError instead of returning the empty list of indices. *)
Lemma Field_filter_zero_count_raises :
  ∃ a s,
    Field_init CellField 0 (scalar 1) empty_state = (Ok a, s) ∧
    Field_len a s = (Ok 0, s) ∧
    Field_filter a greater_than_2 s = (Raise ValueError, s).
Proof. eexists _, _. repeat split; vm_compute; reflexivity. Qed.

(** ** Scaling *)

(** C4, as the code has it: [__mul__] accepts a Scalar Variable only.  On
    the scalar field [1, 2, 3], multiplying by [Scalar(2)] returns a field
    with values [2, 4, 6]; and on every field, an operand that is not a
    Scalar Variable (a field, a Vector or Tensor, or any other object, a
    plain number such as 2.0 included) is refused with TypeError, the heap
    being left as it was. *)
Theorem Field_mul_spec :
  (∃ a s r s',
     counting_field 3 empty_state = (Ok a, s) ∧
     Field_iter a s = (Ok [scalar 1; scalar 2; scalar 3], s) ∧
     Field_mul a (OpVariable (scalar 2)) s = (Ok r, s') ∧
     Field_iter r s' = (Ok [scalar 2; scalar 4; scalar 6], s')) ∧
  (∀ V (HV : VariableLike V) (s : State V) (self : ref),
     (∀ other, Field_mul self (OpField other) s = (Raise TypeError, s)) ∧
     (∀ v, var_type v ≠ KScalar →
           Field_mul self (OpVariable v) s = (Raise TypeError, s)) ∧
     Field_mul self OpOther s = (Raise TypeError, s)).
Proof.
  split.
  - eexists _, _, _, _. repeat split; vm_compute; reflexivity.
  - intros V HV s self. repeat split.
    intros v Hv. unfold Field_mul, is_Scalar. by case_decide.
Qed.

Lemma Field_mul_spec_witness :
  let s := snd (counting_field 3 empty_state) in
  Field_mul 0%nat (OpVariable (Vector 1 1 1)) s = (Raise TypeError, s).
Proof.
  intros s.
  apply (proj1 (proj2 (proj2 Field_mul_spec Variable_ _ s 0%nat))).
  discriminate.
Defined.

(** C4 as stated fails on the plain number 2.0: on the scalar field
    [1, 2, 3], [field * 2.0] raises TypeError instead of returning
    [2, 4, 6]. *)
Lemma Field_mul_plain_number_refused :
  ∃ a s,
    counting_field 3 empty_state = (Ok a, s) ∧
    Field_iter a s = (Ok [scalar 1; scalar 2; scalar 3], s) ∧
    Field_mul a plain_number s = (Raise TypeError, s).
Proof. eexists _, _. repeat split; vm_compute; reflexivity. Qed.

(** ** Assignment *)

(** C1, at the failing input: [a = CellField(2, Scalar(1))],
    [c = CellField(2, Scalar(0))], [c.assign(a)], [a[0] = Scalar(7)].
    After the assignment both objects hold the same array, and the write to
    [a] shows in [c]: [c[0]] is 7, not the 1 that [a] held. *)
Theorem Field_assign_shares_the_array :
  ∃ a c s0 s1 s2 fa fc,
    (a ← Field_init CellField 2 (scalar 1);
     c ← Field_init CellField 2 (scalar 0);
     ret (a, c))%py empty_state = (Ok (a, c), s0) ∧
    a ≠ c ∧
    Field_assign c (OpField a) s0 = (Ok tt, s1) ∧
    objects s1 !! a = Some fa ∧ objects s1 !! c = Some fc ∧
    _values fa = _values fc ∧
    Field_getitem a 0 s1 = (Ok (scalar 1), s1) ∧
    Field_getitem c 0 s1 = (Ok (scalar 1), s1) ∧
    Field_setitem a 0 (scalar 7) s1 = (Ok tt, s2) ∧
    Field_getitem c 0 s2 = (Ok (scalar 7), s2).
Proof.
  eexists _, _, _, _, _, _, _.
  split; [vm_compute; reflexivity|].
  split; [discriminate|].
  repeat split; vm_compute; reflexivity.
Qed.

(** ** Kind homogeneity *)

Section Homogeneity.
Context {V : Type} `{VariableLike V}.
Implicit Types (s : State V) (f : FieldObj V) (vs : list V).

Lemma homogeneous_empty : homogeneous (@empty_state V).
Proof. intros r f Hr. simpl in Hr. by rewrite lookup_empty in Hr. Qed.

Lemma homogeneous_calls s (log : list (Z * V)) :
  homogeneous s → homogeneous (mkState (objects s) (arrays s) log).
Proof. intros Hs r f Hr. exact (Hs r f Hr). Qed.

(** A write through one field keeps every field homogeneous, also those
    that hold the same array: the slot written held a value of their type. *)
Lemma homogeneous_np_setitem s (self : ref) f (index : Z) (value : V) :
  homogeneous s → objects s !! self = Some f → var_type value = type f →
  homogeneous (snd (np_setitem (_values f) index value s)).
Proof.
  intros Hs Hf Hty. unfold np_setitem, bind.
  destruct (Hs self f Hf) as (vs & Hvs & Hall).
  rewrite (read_array_run _ _ _ Hvs).
  destruct (normalize_index (length vs) index) as [k|] eqn:Hk; simpl; [|done].
  apply normalize_index_lt in Hk.
  destruct (lookup_lt_is_Some_2 vs k Hk) as [x Hx].
  intros r g Hg. simpl in *.
  destruct (Hs r g Hg) as (ws & Hws & Hwall).
  destruct (decide (_values g = _values f)) as [Heq|Hne].
  - rewrite Heq, lookup_insert_eq. eexists; split; [done|].
    rewrite Heq, Hvs in Hws. injection Hws as <-.
    apply Forall_insert; [done|].
    rewrite Hty.
    rewrite <- (proj1 (Forall_lookup _ _) Hall k x Hx).
    exact (proj1 (Forall_lookup _ _) Hwall k x Hx).
  - rewrite lookup_insert_ne by done. eauto.
Qed.

Lemma homogeneous_visit s (self : ref) (g : V → pyobj V) (i : Z) :
  homogeneous s → homogeneous (snd (visit self g i s)).
Proof.
  intros Hs. unfold visit, bind at 1, get_object.
  destruct (objects s !! self) as [f|] eqn:Hf; [|done].
  destruct (Hs self f Hf) as (vs & Hvs & _).
  unfold bind at 1. rewrite (np_getitem_run _ _ _ i Hvs).
  destruct (normalize_index _ _) as [k|]; [|done].
  destruct (vs !! k) as [x|]; [|done].
  unfold bind, call.
  destruct (g x) as [v|]; [|by apply homogeneous_calls].
  case_decide; [|by apply homogeneous_calls].
  apply (homogeneous_np_setitem _ self); [by apply homogeneous_calls|done..].
Qed.

Lemma homogeneous_for_in {A} (xs : list A) (body : A → M unit) :
  (∀ x s, homogeneous s → homogeneous (snd (body x s))) →
  ∀ s, homogeneous s → homogeneous (snd (for_in xs body s)).
Proof.
  intros Hbody. induction xs as [|x xs IH]; intros s Hs; simpl; [done|].
  unfold bind. specialize (Hbody x s Hs).
  destruct (body x s) as [[[]|e] s1]; simpl in *; [by apply IH | done].
Qed.

Lemma homogeneous_Field_for_each s (self : ref) (func : pyfunc V) :
  homogeneous s → homogeneous (snd (Field_for_each self func s)).
Proof.
  intros Hs. destruct func as [g|]; simpl; [|done].
  unfold bind, get_object. destruct (objects s !! self) as [f|]; [|done].
  apply homogeneous_for_in; [|done]. intros. by apply homogeneous_visit.
Qed.

Lemma homogeneous_Field_at s (self : ref) (indexes : list Z) (func : pyfunc V) :
  homogeneous s → homogeneous (snd (Field_at self indexes func s)).
Proof.
  intros Hs. destruct func as [g|]; simpl; [|done].
  destruct indexes as [|x rest]; [done|].
  unfold bind, get_object. simpl.
  destruct (objects s !! self) as [f|]; [|done].
  destruct (_ || _); [done|].
  apply (homogeneous_for_in (x :: rest)); [|done].
  intros. by apply homogeneous_visit.
Qed.

Lemma homogeneous_Field_setitem s (self : ref) (index : Z) (value : V) :
  homogeneous s → homogeneous (snd (Field_setitem self index value s)).
Proof.
  intros Hs. unfold Field_setitem, bind, get_object.
  destruct (objects s !! self) as [f|] eqn:Hf; [|done].
  case_decide as Hty; [done|].
  apply (homogeneous_np_setitem _ self); [done..|].
  by destruct (decide (var_type value = var_type (_default f))).
Qed.

Lemma homogeneous_set_values s (self : ref) (l : loc) vs f :
  homogeneous s → objects s !! self = Some f →
  arrays s !! l = Some vs → Forall (λ v, var_type v = type f) vs →
  homogeneous (snd (set_values self l s)).
Proof.
  intros Hs Hf Hl Hall. rewrite (set_values_run _ _ _ _ Hf). simpl.
  intros r g Hg. simpl in *.
  destruct (decide (r = self)) as [->|Hne].
  - rewrite lookup_insert_eq in Hg. injection Hg as <-. simpl. eauto.
  - rewrite lookup_insert_ne in Hg by done. eauto.
Qed.

Lemma homogeneous_new_array s vs :
  homogeneous s → homogeneous (snd (new_array vs s)).
Proof.
  intros Hs r g Hg. simpl in *.
  destruct (Hs r g Hg) as (ws & Hws & Hall).
  exists ws. split; [|done].
  rewrite lookup_insert_ne; [done|].
  intros Heq. pose proof (fresh_array s) as Hfr. congruence.
Qed.

Lemma homogeneous_Field_init s (c : FieldClass) (n : Z) (d : V) :
  homogeneous s → homogeneous (snd (Field_init c n d s)).
Proof.
  intros Hs. unfold Field_init, bind, np_full.
  destruct (Z.ltb_spec n 0); [done|].
  pose proof (homogeneous_new_array s (replicate (Z.to_nat n) d) Hs) as Hs1.
  simpl in *. intros r g Hg. simpl in *.
  destruct (decide (r = fresh (dom (objects s)))) as [->|Hne].
  - rewrite lookup_insert_eq in Hg. injection Hg as <-. simpl.
    rewrite lookup_insert_eq. eexists; split; [done|].
    by apply Forall_replicate.
  - rewrite lookup_insert_ne in Hg by done. exact (Hs1 r g Hg).
Qed.

Lemma check_compatible_inv s s' (a b : ref) :
  Field_check_fields_compatible a b s = (Ok tt, s') →
  s' = s ∧ ∃ fa fb, objects s !! a = Some fa ∧ objects s !! b = Some fb ∧
    _num_vars fa = _num_vars fb ∧ type fa = type fb ∧ domain fa = domain fb.
Proof.
  unfold Field_check_fields_compatible, bind, get_object.
  destruct (objects s !! a) as [fa|]; [|done].
  destruct (objects s !! b) as [fb|]; [|done].
  repeat case_decide; try done.
  intros [= <-]. split; [done|]. exists fa, fb.
  repeat split; try done; by apply dec_stable.
Qed.

Lemma check_compatible_state s (a b : ref) :
  snd (Field_check_fields_compatible a b s) = s.
Proof.
  unfold Field_check_fields_compatible, bind, get_object.
  destruct (objects s !! a) as [fa|]; [|done].
  destruct (objects s !! b) as [fb|]; [|done].
  by repeat case_decide.
Qed.

Lemma homogeneous_Field_assign s (self : ref) (other : operand V) :
  homogeneous s → homogeneous (snd (Field_assign self other s)).
Proof.
  intros Hs. destruct other as [o|v|]; simpl; [| |done].
  - unfold bind at 1, try_except.
    destruct (Field_check_fields_compatible self o s) as [[[]|e] s1] eqn:Hck.
    + apply check_compatible_inv in Hck
        as (-> & fa & fb & Ha & Hb & _ & Hty & _).
      unfold bind at 1. rewrite (get_object_run _ _ _ Hb).
      destruct (Hs o fb Hb) as (vs & Hvs & Hall).
      apply (homogeneous_set_values _ _ _ vs fa); try done.
      by rewrite Hty.
    + pose proof (check_compatible_state s self o) as Hst.
      rewrite Hck in Hst. simpl in Hst. subst s1.
      by destruct e.
  - unfold bind at 1, get_object.
    destruct (objects s !! self) as [f|] eqn:Hf; [|done].
    case_decide as Hty; [done|].
    unfold bind at 1, np_full.
    destruct (Z.ltb_spec (_num_vars f) 0); [done|].
    pose proof (homogeneous_new_array s (replicate (Z.to_nat (_num_vars f)) v) Hs)
      as Hs1.
    apply (homogeneous_set_values _ _ _ (replicate (Z.to_nat (_num_vars f)) v) f);
      [done|done|apply lookup_insert_eq|].
    apply Forall_replicate.
    by destruct (decide (var_type v = type f)).
Qed.

Lemma homogeneous_perform s (c : method_call V) :
  homogeneous s → homogeneous (snd (perform c s)).
Proof.
  intros Hs. destruct c; simpl.
  - unfold bind. pose proof (homogeneous_Field_init s c num_vars default Hs).
    by destruct (Field_init c num_vars default s) as [[r|e] s1].
  - by apply homogeneous_Field_setitem.
  - by apply homogeneous_Field_for_each.
  - by apply homogeneous_Field_at.
  - by apply homogeneous_Field_assign.
Qed.

Lemma homogeneous_run_calls (cs : list (method_call V)) s :
  homogeneous s → homogeneous (run_calls cs s).
Proof.
  revert s. induction cs as [|c cs IH]; intros s Hs; simpl; [done|].
  by apply IH, homogeneous_perform.
Qed.

End Homogeneity.

Section WriteBack.
Context {V : Type} `{VariableLike V}.
Implicit Types (s : State V) (f : FieldObj V) (vs : list V).

Lemma np_setitem_objects s (l : loc) (index : Z) (value : V) :
  objects (snd (np_setitem l index value s)) = objects s.
Proof.
  unfold np_setitem, bind, read_array.
  destruct (arrays s !! l) as [vs|]; [|done].
  by destruct (normalize_index _ _).
Qed.

Lemma np_getitem_state s (l : loc) (index : Z) :
  snd (np_getitem l index s) = s.
Proof.
  unfold np_getitem, bind, read_array.
  destruct (arrays s !! l) as [vs|]; [|done].
  destruct (normalize_index _ _) as [k|]; [|done]. simpl.
  by destruct (vs !! k).
Qed.

(** A transform whose results are never Variables of the field's type
    changes no array. *)
Lemma visit_mismatch s (self : ref) f (g : V → pyobj V) (i : Z) :
  objects s !! self = Some f →
  (∀ x v, g x = PyVariable v → var_type v ≠ type f) →
  objects (snd (visit self g i s)) = objects s ∧
  arrays (snd (visit self g i s)) = arrays s.
Proof.
  intros Hf Hg.
  destruct (visit self g i s) as [o s1] eqn:Hv. simpl. revert Hv.
  unfold visit, bind at 1. rewrite (get_object_run _ _ _ Hf).
  unfold bind at 1. pose proof (np_getitem_state s (_values f) i) as Hst.
  destruct (np_getitem (_values f) i s) as [[x|e] s2]; simpl in Hst; subst s2;
    [|by intros [= <- <-]].
  unfold bind, call. destruct (g x) as [v|] eqn:Hgx; [|by intros [= <- <-]].
  case_decide as Hty; [|by intros [= <- <-]]. by destruct (Hg x v Hgx).
Qed.

Lemma for_in_visit_mismatch s (self : ref) f (g : V → pyobj V) (xs : list Z) :
  objects s !! self = Some f →
  (∀ x v, g x = PyVariable v → var_type v ≠ type f) →
  arrays (snd (for_in xs (visit self g) s)) = arrays s.
Proof.
  intros Hf Hg. revert s Hf. induction xs as [|i xs IH]; intros s Hf; [done|].
  simpl. unfold bind.
  destruct (visit_mismatch s self f g i Hf Hg) as [Hobj Harr].
  destruct (visit self g i s) as [[[]|e] s1]; simpl in *; [|done].
  rewrite IH by congruence. done.
Qed.

(** C8: kind homogeneity is an invariant of the heap.  It holds of the
    empty heap and after any sequence of constructions and of [set],
    [for_each], [at] and [assign] calls, whether they return or raise;
    [set] and [assign] refuse a value or a field of another type with
    TypeError and change nothing; and [for_each] and [at] change no array
    when the transform's results are not Variables of the field's type. *)
Theorem kind_homogeneity :
  homogeneous (@empty_state V) ∧
  (∀ (cs : list (method_call V)) s,
     homogeneous s → homogeneous (run_calls cs s)) ∧
  (∀ s (self : ref) f (index : Z) (value : V),
     objects s !! self = Some f → var_type value ≠ type f →
     Field_setitem self index value s = (Raise TypeError, s)) ∧
  (∀ s (self : ref) f (v : V),
     objects s !! self = Some f → var_type v ≠ type f →
     Field_assign self (OpVariable v) s = (Raise TypeError, s)) ∧
  (∀ s (self other : ref) f fo,
     objects s !! self = Some f → objects s !! other = Some fo →
     type fo ≠ type f →
     Field_assign self (OpField other) s = (Raise TypeError, s)) ∧
  (∀ s (self : ref) f (g : V → pyobj V) (indexes : list Z),
     objects s !! self = Some f →
     (∀ x v, g x = PyVariable v → var_type v ≠ type f) →
     arrays (snd (Field_for_each self (Callable g) s)) = arrays s ∧
     arrays (snd (Field_at self indexes (Callable g) s)) = arrays s).
Proof.
  split; [apply homogeneous_empty|].
  split; [intros cs s; apply homogeneous_run_calls|].
  split; [|split; [|split]].
  - intros s self f index value Hf Hty.
    unfold Field_setitem, bind. rewrite (get_object_run _ _ _ Hf).
    by case_decide.
  - intros s self f v Hf Hty. simpl.
    unfold bind. rewrite (get_object_run _ _ _ Hf). by case_decide.
  - intros s self other f fo Hf Hfo Hty. simpl.
    unfold bind, try_except, Field_check_fields_compatible, bind.
    rewrite (get_object_run _ _ _ Hf), (get_object_run _ _ _ Hfo).
    repeat case_decide; try done; congruence.
  - intros s self f g indexes Hf Hg. split.
    + simpl. unfold bind. rewrite (get_object_run _ _ _ Hf).
      by eapply for_in_visit_mismatch.
    + simpl. destruct indexes as [|x rest]; [done|].
      unfold bind. simpl. rewrite (get_object_run _ _ _ Hf).
      destruct (_ || _); [done|].
      by apply (for_in_visit_mismatch s self f g (x :: rest)).
Qed.

End WriteBack.

Lemma kind_homogeneity_witness :
  let s := snd ((a ← counting_field 3; Field_init CellField 3 (Vector 0 0 0))%py
                  empty_state) in
  let f := mkField CellField 3 (scalar 1) 0%nat in
  let fo := mkField CellField 3 (Vector 0 0 0) 1%nat in
  homogeneous
    (run_calls [CallNew CellField 3 (scalar 1);
                CallNew CellField 3 (Vector 0 0 0);
                CallSet 0%nat 1 (scalar 5);
                CallSet 0%nat 1 (Vector 1 1 1);
                CallForEach 0%nat (Callable plus_one);
                CallAt 0%nat [0; 2] (Callable (λ v, PyVariable (Vector 1 1 1)));
                CallAssign 0%nat (OpField 1%nat);
                CallAssign 1%nat (OpVariable (Vector 2 2 2))]
       (@empty_state Variable_)) ∧
  Field_setitem 0%nat 1 (Vector 1 1 1) s = (Raise TypeError, s) ∧
  Field_assign 0%nat (OpVariable (Vector 1 1 1)) s = (Raise TypeError, s) ∧
  Field_assign 0%nat (OpField 1%nat) s = (Raise TypeError, s) ∧
  arrays (snd (Field_for_each 0%nat (Callable (λ v, PyVariable (Vector 1 1 1))) s))
    = arrays s ∧
  arrays (snd (Field_at 0%nat [0; 2] (Callable (λ v, PyVariable (Vector 1 1 1))) s))
    = arrays s.
Proof.
  intros s f fo.
  destruct (@kind_homogeneity Variable_ _) as (H0 & Hrun & Hset & Hvar & Hfld & Hskip).
  split; [exact (Hrun _ _ H0)|].
  split; [exact (Hset s 0%nat f 1 (Vector 1 1 1) eq_refl ltac:(discriminate))|].
  split; [exact (Hvar s 0%nat f (Vector 1 1 1) eq_refl ltac:(discriminate))|].
  split; [exact (Hfld s 0%nat 1%nat f fo eq_refl eq_refl ltac:(discriminate))|].
  apply (Hskip s 0%nat f (λ v, PyVariable (Vector 1 1 1)) [0; 2] eq_refl).
  intros x v [= <-]. discriminate.
Defined.

(** ** Which slots [at] visits *)

Section Visits.
Context {V : Type} `{VariableLike V}.
Implicit Types (s : State V) (f : FieldObj V) (vs : list V).

Lemma visit_run s (self : ref) f vs (g : V → pyobj V) (i : Z) :
  objects s !! self = Some f →
  arrays s !! _values f = Some vs →
  0 ≤ i < Z.of_nat (length vs) →
  ∃ s' x vs',
    visit self g i s = (Ok tt, s') ∧
    objects s' = objects s ∧
    arrays s' !! _values f = Some vs' ∧ length vs' = length vs ∧
    calls s' = calls s ++ [(i, x)].
Proof.
  intros Hf Hvs Hi. unfold visit, bind at 1. rewrite (get_object_run _ _ _ Hf).
  unfold bind at 1. rewrite (np_getitem_run _ _ _ i Hvs).
  rewrite normalize_index_nonneg by done.
  destruct (lookup_lt_is_Some_2 vs (Z.to_nat i)) as [x Hx]; [lia|]. rewrite Hx.
  unfold bind at 1, call.
  set (s1 := mkState (objects s) (arrays s) (calls s ++ [(i, x)])).
  assert (∃ s' vs', ret tt s1 = (Ok tt, s') ∧ objects s' = objects s ∧
            arrays s' !! _values f = Some vs' ∧ length vs' = length vs ∧
            calls s' = calls s ++ [(i, x)]) as Hskip
    by (by exists s1, vs).
  destruct (g x) as [v|]; [|destruct Hskip as (s' & vs' & ?); by exists s', x, vs'].
  case_decide; [|destruct Hskip as (s' & vs' & ?); by exists s', x, vs'].
  unfold np_setitem, bind. rewrite (read_array_run s1 _ vs Hvs).
  rewrite normalize_index_nonneg by done. simpl.
  eexists _, x, _. split; [reflexivity|]. simpl.
  by rewrite lookup_insert_eq, length_insert.
Qed.

Lemma for_in_visit_run (self : ref) f (g : V → pyobj V) (indexes : list Z) :
  ∀ s vs,
    objects s !! self = Some f →
    arrays s !! _values f = Some vs →
    (∀ i, i ∈ indexes → 0 ≤ i < Z.of_nat (length vs)) →
    ∃ s' new,
      for_in indexes (visit self g) s = (Ok tt, s') ∧
      objects s' = objects s ∧
      calls s' = calls s ++ new ∧ new.*1 = indexes.
Proof.
  induction indexes as [|i rest IH]; intros s vs Hf Hvs Hin.
  - exists s, []. by rewrite app_nil_r.
  - destruct (visit_run s self f vs g i Hf Hvs) as
      (s1 & x & vs1 & Hrun & Hobj & Hvs1 & Hlen & Hlog); [apply Hin; left|].
    destruct (IH s1 vs1) as (s' & new & Hrest & Hobj' & Hlog' & Hnew).
    { by rewrite Hobj. }
    { done. }
    { intros j Hj. rewrite Hlen. apply Hin. by right. }
    exists s', ((i, x) :: new). simpl. unfold bind. rewrite Hrun, Hrest.
    split; [done|]. split; [congruence|].
    split; [|by rewrite <- Hnew].
    by rewrite Hlog', Hlog, <- app_assoc.
Qed.

Lemma visits_absent (i : Z) (log : list (Z * V)) :
  i ∉ log.*1 → visits i log = 0%nat.
Proof.
  unfold visits. induction log as [|[j x] log IH]; simpl; [done|].
  intros Hi. apply not_elem_of_cons in Hi as [Hne Hi].
  rewrite filter_cons_False by (simpl; congruence). by apply IH.
Qed.

Lemma visits_once (i : Z) (log : list (Z * V)) :
  NoDup log.*1 → i ∈ log.*1 → visits i log = 1%nat.
Proof.
  unfold visits. induction log as [|[j x] log IH]; simpl.
  - by intros _ ?%elem_of_nil.
  - intros [Hj Hnd]%NoDup_cons Hi.
    destruct (decide (j = i)) as [->|Hne].
    + rewrite filter_cons_True by done. simpl.
      pose proof (visits_absent i log Hj) as Hzero. unfold visits in Hzero.
      by rewrite Hzero.
    + rewrite filter_cons_False by done.
      apply elem_of_cons in Hi as [?|Hi]; [congruence|]. by apply IH.
Qed.

(** C9, as the code has it: [for i in indexes] runs over the list as it
    was given.  On a non-empty list of in-range indices [at] returns, and
    the transform is applied at the supplied indices in list order, once for
    every occurrence; when no index is repeated, each supplied index is
    visited exactly once. *)
Theorem Field_at_visits s (self : ref) f vs (indexes : list Z) (g : V → pyobj V) :
  objects s !! self = Some f →
  arrays s !! _values f = Some vs →
  length vs = Z.to_nat (_num_vars f) →
  indexes ≠ [] →
  (∀ i, i ∈ indexes → 0 ≤ i < _num_vars f) →
  ∃ s' new,
    Field_at self indexes (Callable g) s = (Ok tt, s') ∧
    calls s' = calls s ++ new ∧
    new.*1 = indexes ∧
    (NoDup indexes → ∀ i, i ∈ indexes → visits i new = 1%nat).
Proof.
  intros Hf Hvs Hlen Hne Hin.
  destruct (for_in_visit_run self f g indexes s vs Hf Hvs) as
    (s' & new & Hrun & _ & Hlog & Hnew).
  { intros i Hi. specialize (Hin i Hi). lia. }
  exists s', new. split; [|split; [done|split; [done|]]].
  - destruct indexes as [|x rest]; [done|].
    unfold Field_at, bind. simpl py_min. simpl py_max. cbv beta iota.
    unfold ret at 1 2. rewrite (get_object_run _ _ _ Hf).
    pose proof (Hin _ (foldl_min_elem x rest)).
    pose proof (Hin _ (foldl_max_elem x rest)).
    destruct (Z.ltb_spec (foldl Z.min x rest) 0); [lia|].
    destruct (Z.geb_spec (foldl Z.max x rest) (_num_vars f)); [lia|].
    exact Hrun.
  - intros Hnd i Hi. apply visits_once; by rewrite Hnew.
Qed.

End Visits.

(** C9 as stated fails on a repeated index: on [CellField(3, Scalar(1))],
    [at([1, 1], plus_one)] applies the transform twice at index 1, which
    ends at 3. *)
Lemma Field_at_repeated_index_visited_twice :
  ∃ a s s',
    Field_init CellField 3 (scalar 1) empty_state = (Ok a, s) ∧
    Field_at a [1; 1] (Callable plus_one) s = (Ok tt, s') ∧
    visits 1 (calls s') = 2%nat ∧
    Field_iter a s' = (Ok [scalar 1; scalar 3; scalar 1], s').
Proof. eexists _, _, _. repeat split; vm_compute; reflexivity. Qed.

Lemma Field_at_visits_witness :
  let s := snd (counting_field 5 empty_state) in
  ∃ s' new,
    Field_at 0%nat [1; 3] (Callable plus_one) s = (Ok tt, s') ∧
    calls s' = calls s ++ new ∧
    new.*1 = [1; 3] ∧
    (NoDup [1; 3] → ∀ i, i ∈ [1; 3] → visits i new = 1%nat).
Proof.
  intros s.
  apply (Field_at_visits s 0%nat (mkField CellField 5 (scalar 1) 0%nat)
           [scalar 1; scalar 2; scalar 3; scalar 4; scalar 5]).
  - reflexivity.
  - reflexivity.
  - reflexivity.
  - discriminate.
  - intros i Hi. simpl.
    apply elem_of_cons in Hi as [->|Hi]; [lia|].
    apply list_elem_of_singleton in Hi as ->. lia.
Defined.

(** ** What no method changes: class, count and default *)

Section Attributes.
Context {V : Type} `{VariableLike V} `{VariableDiv V}.
Implicit Types (s : State V) (f : FieldObj V) (vs : list V).

Local Abbreviation keeps m := (∀ s, attributes_kept s (snd (m s))).

Lemma attributes_kept_refl s : attributes_kept s s.
Proof. intros r f Hf. by exists f. Qed.

Lemma attributes_kept_trans s1 s2 s3 :
  attributes_kept s1 s2 → attributes_kept s2 s3 → attributes_kept s1 s3.
Proof.
  intros H12 H23 r f Hf.
  destruct (H12 r f Hf) as (f2 & Hf2 & Hc & Hn & Hd).
  destruct (H23 r f2 Hf2) as (f3 & Hf3 & Hc' & Hn' & Hd').
  exists f3. repeat split; congruence.
Qed.

Lemma attributes_kept_objects s s' :
  objects s' = objects s → attributes_kept s s'.
Proof. intros Heq r f Hf. exists f. by rewrite Heq. Qed.

Lemma keeps_ret {A} (a : A) : keeps (ret a : M A).
Proof. intros s. apply attributes_kept_refl. Qed.

Lemma keeps_raise {A} (e : exn) : keeps (raise e : M A).
Proof. intros s. apply attributes_kept_refl. Qed.

Lemma keeps_bind {A B} (m : M A) (k : A → M B) :
  keeps m → (∀ a, keeps (k a)) → keeps (bind m k).
Proof.
  intros Hm Hk s. unfold bind. specialize (Hm s).
  destruct (m s) as [[a|e] s1]; simpl in *; [|done].
  eapply attributes_kept_trans; [exact Hm | apply Hk].
Qed.

Lemma keeps_try_except {A} (m : M A) (handler : exn → M A) :
  keeps m → (∀ e, keeps (handler e)) → keeps (try_except m handler).
Proof.
  intros Hm Hh s. unfold try_except. specialize (Hm s).
  destruct (m s) as [[a|e] s1]; simpl in *; [done|].
  eapply attributes_kept_trans; [exact Hm | apply Hh].
Qed.

Lemma keeps_for_in {A} (xs : list A) (body : A → M unit) :
  (∀ x, keeps (body x)) → keeps (for_in xs body).
Proof.
  intros Hbody. induction xs as [|x xs IH]; simpl;
    [intros s; apply attributes_kept_refl|].
  apply keeps_bind; [apply Hbody | intros _; apply IH].
Qed.

Lemma keeps_lift {A} (e : exn) (o : option A) : keeps (lift e o : M A).
Proof. destruct o; intros s; apply attributes_kept_refl. Qed.

Lemma keeps_read_array (l : loc) : keeps (read_array l : M (list V)).
Proof.
  intros s. unfold read_array.
  destruct (arrays s !! l); apply attributes_kept_refl.
Qed.

Lemma keeps_get_object (self : ref) : keeps (get_object self : M (FieldObj V)).
Proof.
  intros s. unfold get_object.
  destruct (objects s !! self); apply attributes_kept_refl.
Qed.

Lemma keeps_new_array vs : keeps (new_array vs).
Proof. intros s. by apply attributes_kept_objects. Qed.

Lemma keeps_write_array (l : loc) vs : keeps (write_array l vs).
Proof. intros s. by apply attributes_kept_objects. Qed.

Lemma keeps_call (g : V → pyobj V) (i : Z) (x : V) : keeps (call g i x).
Proof. intros s. by apply attributes_kept_objects. Qed.

Lemma keeps_new_object f : keeps (new_object f).
Proof.
  intros s r g Hg. simpl. exists g. split; [|done].
  rewrite lookup_insert_ne; [done|].
  intros <-. pose proof (fresh_object s). congruence.
Qed.

Lemma keeps_set_values (self : ref) (l : loc) : keeps (set_values self l).
Proof.
  intros s. unfold set_values, bind, get_object.
  destruct (objects s !! self) as [f|] eqn:Hf; [|apply attributes_kept_refl].
  intros r g Hg. simpl.
  destruct (decide (r = self)) as [->|Hne].
  - rewrite lookup_insert_eq. eexists; split; [done|].
    rewrite Hf in Hg. by injection Hg as <-.
  - rewrite lookup_insert_ne by done. by exists g.
Qed.

Ltac keeps_step :=
  first
    [ solve [intros ?; apply attributes_kept_refl] | apply keeps_lift
    | apply keeps_read_array | apply keeps_get_object | apply keeps_new_array
    | apply keeps_write_array | apply keeps_call | apply keeps_new_object
    | apply keeps_set_values
    | apply keeps_bind; [|intros ?]
    | apply keeps_try_except; [|intros ?]
    | apply keeps_for_in; intros ?
    | match goal with
      | |- ∀ s, attributes_kept s (snd ((if ?b then _ else _) s)) => destruct b
      | |- ∀ s, attributes_kept s (snd ((match ?x with _ => _ end) s)) => destruct x
      end ].

Lemma keeps_np_getitem (l : loc) (index : Z) : keeps (np_getitem l index : M V).
Proof. unfold np_getitem. repeat keeps_step. Qed.

Lemma keeps_np_setitem (l : loc) (index : Z) (value : V) :
  keeps (np_setitem l index value).
Proof. unfold np_setitem. repeat keeps_step. Qed.

Lemma keeps_np_full (n : Z) (fill : V) : keeps (np_full n fill).
Proof. unfold np_full. repeat keeps_step. Qed.

Lemma keeps_Field_init (c : FieldClass) (n : Z) (d : V) : keeps (Field_init c n d).
Proof. unfold Field_init. keeps_step; [apply keeps_np_full | keeps_step]. Qed.

Lemma keeps_visit (self : ref) (g : V → pyobj V) (i : Z) : keeps (visit self g i).
Proof.
  unfold visit. keeps_step; [keeps_step|].
  keeps_step; [apply keeps_np_getitem|].
  keeps_step; [keeps_step|].
  repeat keeps_step; try apply keeps_np_setitem.
Qed.

Lemma keeps_check (a b : ref) :
  keeps (Field_check_fields_compatible a b : M unit).
Proof. unfold Field_check_fields_compatible. repeat keeps_step. Qed.

Lemma keeps_np_binary (op : V → V → V) (l1 l2 : loc) : keeps (np_binary op l1 l2).
Proof. unfold np_binary. repeat keeps_step. Qed.

Lemma keeps_np_unary (op : V → V) (l : loc) : keeps (np_unary op l).
Proof. unfold np_unary. repeat keeps_step. Qed.

Lemma keeps_result (c : FieldClass) (n : Z) (d : V) (X : M loc) :
  keeps X →
  keeps (result ← Field_init c n d; l ← X; set_values result l;; ret result)%py.
Proof.
  intros HX. keeps_step; [apply keeps_Field_init|].
  keeps_step; [apply HX|]. repeat keeps_step.
Qed.

Lemma keeps_perform (c : method_call V) : keeps (perform c).
Proof.
  destruct c as [c n d|self index value|self func|self indexes func|self other];
    simpl.
  - keeps_step; [apply keeps_Field_init | keeps_step].
  - unfold Field_setitem. repeat keeps_step; try apply keeps_np_setitem.
  - unfold Field_for_each. repeat keeps_step; try apply keeps_visit.
  - unfold Field_at, py_min, py_max. repeat keeps_step; try apply keeps_visit.
  - unfold Field_assign, reraise_TypeError.
    destruct other; repeat keeps_step; try apply keeps_check;
      try apply keeps_np_full.
Qed.

Lemma keeps_perform_arith (c : arith_call V) : keeps (perform_arith c).
Proof.
  destruct c as [self other|self other|self other|self other|self|self]; simpl;
    unfold Field_add, Field_sub, Field_mul, Field_truediv, Field_neg,
      Field_abs, reraise_TypeError, np_vectorize;
    try destruct other; repeat keeps_step; apply keeps_np_full.
Qed.

(** No method changes the class, the count or the default of a field, and
    no field object is ever removed: after any program, every field that
    existed answers the same [len], [domain] and [type]. *)
Theorem attributes_never_change (cs : list (any_call V)) s (r : ref) f :
  objects s !! r = Some f →
  ∃ f', objects (run_program cs s) !! r = Some f' ∧
        Field_len r (run_program cs s) = (Ok (_num_vars f), run_program cs s) ∧
        domain f' = domain f ∧ type f' = type f ∧ _default f' = _default f.
Proof.
  intros Hf.
  assert (attributes_kept s (run_program cs s)) as Hkept.
  { clear Hf. revert s. induction cs as [|c cs IH]; intros s; simpl;
      [apply attributes_kept_refl|].
    eapply attributes_kept_trans; [|apply IH].
    destruct c as [c|c]; simpl; [apply keeps_perform|].
    apply (keeps_bind (perform_arith c) (λ _, ret tt));
      [apply keeps_perform_arith | intros ? ?; apply attributes_kept_refl]. }
  destruct (Hkept r f Hf) as (f' & Hf' & Hc & Hn & Hd).
  exists f'. split; [done|]. split.
  - unfold Field_len, bind. rewrite (get_object_run _ _ _ Hf'). unfold ret.
    by rewrite Hn.
  - unfold domain, type. by rewrite Hc, Hd.
Qed.

End Attributes.

(** ** Arrays keep the length of their field *)

Section WellFormed.
Context {V : Type} `{VariableLike V} `{VariableDiv V}.
Implicit Types (s : State V) (f : FieldObj V) (vs : list V).

Lemma bind_ext {St A B} (m : PyM St A) (k k' : A → PyM St B) (st : St) :
  (∀ a st', k a st' = k' a st') → bind m k st = bind m k' st.
Proof. intros Hk. unfold bind. by destruct (m st) as [[a|e] st']. Qed.

Lemma elementwise_Forall2 {A B} (op : A → outcome B) (xs : list A) (ys : list B) :
  elementwise op xs = Ok ys ↔ Forall2 (λ x y, op x = Ok y) xs ys.
Proof.
  revert ys. induction xs as [|x xs IH]; intros ys; simpl.
  - split; [intros [= <-]; constructor | by intros ->%Forall2_nil_inv_l].
  - split.
    + destruct (op x) as [y|e] eqn:Hx; [|done].
      destruct (elementwise op xs) as [zs|e] eqn:Hxs; [|done].
      intros [= <-]. constructor; [done|]. by apply IH.
    + intros (y & zs & Hx & Hxs & ->)%Forall2_cons_inv_l.
      rewrite Hx. apply IH in Hxs. by rewrite Hxs.
Qed.

Lemma elementwise_length {A B} (op : A → outcome B) (xs : list A) (ys : list B) :
  elementwise op xs = Ok ys → length ys = length xs.
Proof.
  intros Hxs%elementwise_Forall2. symmetry. by eapply Forall2_length.
Qed.

Lemma well_formed_empty : well_formed (@empty_state V).
Proof. intros r f Hr. simpl in Hr. by rewrite lookup_empty in Hr. Qed.

Lemma well_formed_calls s (log : list (Z * V)) :
  well_formed s → well_formed (mkState (objects s) (arrays s) log).
Proof. intros Hs r f Hr. exact (Hs r f Hr). Qed.

Lemma well_formed_np_setitem s (l : loc) (index : Z) (value : V) :
  well_formed s → well_formed (snd (np_setitem l index value s)).
Proof.
  intros Hs. unfold np_setitem, bind, read_array.
  destruct (arrays s !! l) as [vs|] eqn:Hvs; [|done].
  destruct (normalize_index _ _) as [k|]; simpl; [|done].
  intros r g Hg. simpl in *.
  destruct (Hs r g Hg) as (Hn & ws & Hws & Hlen). split; [done|].
  destruct (decide (_values g = l)) as [Heq|Hne].
  - rewrite Heq, lookup_insert_eq. eexists; split; [done|].
    rewrite length_insert. rewrite Heq, Hvs in Hws. by injection Hws as <-.
  - rewrite lookup_insert_ne by done. eauto.
Qed.

Lemma well_formed_new_array s vs :
  well_formed s → well_formed (snd (new_array vs s)).
Proof.
  intros Hs r g Hg. simpl in *.
  destruct (Hs r g Hg) as (Hn & ws & Hws & Hlen). split; [done|].
  exists ws. split; [|done].
  rewrite lookup_insert_ne; [done|].
  intros Heq. pose proof (fresh_array s) as Hfr. congruence.
Qed.

Lemma well_formed_set_values s (self : ref) f (l : loc) vs :
  well_formed s → objects s !! self = Some f →
  arrays s !! l = Some vs → length vs = Z.to_nat (_num_vars f) →
  well_formed (snd (set_values self l s)).
Proof.
  intros Hs Hf Hl Hlen. rewrite (set_values_run _ _ _ _ Hf). simpl.
  intros r g Hg. simpl in *.
  destruct (decide (r = self)) as [->|Hne].
  - rewrite lookup_insert_eq in Hg. injection Hg as <-. simpl.
    split; [apply (Hs self f Hf) | eauto].
  - rewrite lookup_insert_ne in Hg by done. eauto.
Qed.

Lemma well_formed_visit s (self : ref) (g : V → pyobj V) (i : Z) :
  well_formed s → well_formed (snd (visit self g i s)).
Proof.
  intros Hs. unfold visit, bind at 1, get_object.
  destruct (objects s !! self) as [f|] eqn:Hf; [|done].
  unfold bind at 1. pose proof (np_getitem_state s (_values f) i) as Hst.
  destruct (np_getitem (_values f) i s) as [[x|e] s1]; simpl in Hst; subst s1;
    [|done].
  unfold bind, call.
  destruct (g x) as [v|]; [|by apply well_formed_calls].
  case_decide; [|by apply well_formed_calls].
  by apply well_formed_np_setitem, well_formed_calls.
Qed.

Lemma well_formed_for_in {A} (xs : list A) (body : A → M unit) :
  (∀ x s, well_formed s → well_formed (snd (body x s))) →
  ∀ s, well_formed s → well_formed (snd (for_in xs body s)).
Proof.
  intros Hbody. induction xs as [|x xs IH]; intros s Hs; simpl; [done|].
  unfold bind. specialize (Hbody x s Hs).
  destruct (body x s) as [[[]|e] s1]; simpl in *; [by apply IH | done].
Qed.

Lemma well_formed_Field_init s (c : FieldClass) (n : Z) (d : V) :
  well_formed s → well_formed (snd (Field_init c n d s)).
Proof.
  intros Hs. unfold Field_init, bind, np_full.
  destruct (Z.ltb_spec n 0); [done|].
  pose proof (well_formed_new_array s (replicate (Z.to_nat n) d) Hs) as Hs1.
  simpl in *. intros r g Hg. simpl in *.
  destruct (decide (r = fresh (dom (objects s)))) as [->|Hne].
  - rewrite lookup_insert_eq in Hg. injection Hg as <-. simpl.
    split; [done|]. rewrite lookup_insert_eq. eexists; split; [done|].
    apply length_replicate.
  - rewrite lookup_insert_ne in Hg by done. exact (Hs1 r g Hg).
Qed.

Lemma well_formed_perform s (c : method_call V) :
  well_formed s → well_formed (snd (perform c s)).
Proof.
  intros Hs.
  destruct c as [c n d|self index value|self func|self indexes func|self other];
    simpl.
  - unfold bind. pose proof (well_formed_Field_init s c n d Hs).
    by destruct (Field_init c n d s) as [[r|e] s1].
  - unfold Field_setitem, bind, get_object.
    destruct (objects s !! self) as [f|]; [|done].
    case_decide; [done|]. by apply well_formed_np_setitem.
  - destruct func as [g|]; simpl; [|done].
    unfold bind, get_object. destruct (objects s !! self) as [f|]; [|done].
    apply well_formed_for_in; [|done]. intros. by apply well_formed_visit.
  - destruct func as [g|]; simpl; [|done].
    destruct indexes as [|x rest]; [done|].
    unfold bind, get_object. simpl.
    destruct (objects s !! self) as [f|]; [|done].
    destruct (_ || _); [done|].
    apply (well_formed_for_in (x :: rest)); [|done].
    intros. by apply well_formed_visit.
  - destruct other as [o|v|]; simpl; [| |done].
    + unfold bind at 1, try_except.
      destruct (Field_check_fields_compatible self o s) as [[[]|e] s1] eqn:Hck.
      * apply check_compatible_inv in Hck
          as (-> & fa & fb & Ha & Hb & Hn & _ & _).
        unfold bind at 1. rewrite (get_object_run _ _ _ Hb).
        destruct (Hs o fb Hb) as (_ & vs & Hvs & Hlen).
        apply (well_formed_set_values _ _ fa _ vs); try done. congruence.
      * pose proof (check_compatible_state s self o) as Hst.
        rewrite Hck in Hst. simpl in Hst. subst s1. by destruct e.
    + unfold bind at 1, get_object.
      destruct (objects s !! self) as [f|] eqn:Hf; [|done].
      case_decide; [done|].
      unfold bind at 1, np_full.
      destruct (Z.ltb_spec (_num_vars f) 0); [done|].
      pose proof (well_formed_new_array s (replicate (Z.to_nat (_num_vars f)) v) Hs).
      apply (well_formed_set_values _ _ f _ (replicate (Z.to_nat (_num_vars f)) v));
        [done|done|apply lookup_insert_eq|apply length_replicate].
Qed.

(** The tail of every operator keeps arrays as long as their fields, as
    soon as the array it installs has the count of the result. *)
Lemma well_formed_result s (c : FieldClass) (n : Z) (d : V) (X : M loc) :
  well_formed s → 0 ≤ n →
  (∀ s1, arrays s ⊆ arrays s1 →
     (∃ e, X s1 = (Raise e, s1)) ∨
     (∃ vals, length vals = Z.to_nat n ∧ X s1 = new_array vals s1)) →
  well_formed
    (snd ((result ← Field_init c n d; l ← X; set_values result l;; ret result)%py s)).
Proof.
  intros Hs Hn HX.
  pose proof (well_formed_Field_init s c n d Hs) as Hs1.
  unfold bind at 1. rewrite Field_init_run in * by done. simpl in Hs1.
  match type of Hs1 with well_formed ?st => set (s1 := st) in * end.
  destruct (HX s1) as [(e & HXe)|(vals & Hlen & HXv)].
  { simpl. apply insert_subseteq, fresh_array. }
  - unfold bind at 1. by rewrite HXe.
  - unfold bind at 1. rewrite HXv.
    pose proof (well_formed_new_array s1 vals Hs1) as Hs2. simpl in *.
    match type of Hs2 with well_formed ?st => set (s2 := st) in * end.
    pose proof (well_formed_set_values s2 (fresh (dom (objects s)))
                  (mkField c n d (fresh (dom (arrays s))))
                  (fresh (dom (arrays s1))) vals Hs2) as Hs3.
    unfold bind.
    destruct (set_values _ _ s2) as [[[]|e] s3]; simpl in *;
      apply Hs3; try done; apply lookup_insert_eq.
Qed.

Lemma well_formed_perform_arith s (c : arith_call V) :
  well_formed s → well_formed (snd (perform_arith c s)).
Proof.
  intros Hs.
  assert (∀ self f (op : V → V),
            objects s !! self = Some f →
            well_formed
              (snd ((result ← Field_init (cls f) (_num_vars f) (_default f);
                     l ← np_unary op (_values f);
                     set_values result l;; ret result)%py s))) as Hunary.
  { intros self f op Hf. destruct (Hs self f Hf) as (Hn & vs & Hvs & Hlen).
    apply well_formed_result; [done..|].
    intros s1 Hsub. right. exists (op <$> vs).
    split; [by rewrite length_fmap|].
    apply np_unary_run. by eapply lookup_weaken. }
  assert (∀ self f (op : V → V → V) (v : V),
            objects s !! self = Some f →
            well_formed
              (snd ((result ← Field_init (cls f) (_num_vars f) (_default f);
                     xs ← read_array (_values f);
                     ys ← np_vectorize (λ x, op x v) xs;
                     l ← new_array ys;
                     set_values result l;; ret result)%py s))) as Hconst.
  { intros self f op v Hf. destruct (Hs self f Hf) as (Hn & vs & Hvs & Hlen).
    rewrite (bind_ext _ _
               (λ result,
                  l ← (xs ← read_array (_values f);
                       ys ← np_vectorize (λ x, op x v) xs; new_array ys);
                  set_values result l;; ret result)%py).
    2: { intros r s'. unfold bind.
         destruct (read_array (_values f) s') as [[[|x xs]|e] s'']; done. }
    apply well_formed_result; [done..|].
    intros s1 Hsub. unfold bind.
    rewrite (read_array_run s1 _ vs) by by eapply lookup_weaken.
    destruct vs as [|x vs]; [left; by eexists|].
    right. eexists. split; [|reflexivity]. rewrite length_fmap. done. }
  assert (∀ self o (op : V → V → V),
            well_formed
              (snd ((try_except (Field_check_fields_compatible self o)
                       reraise_TypeError;;
                     f ← get_object self;
                     fo ← get_object o;
                     result ← Field_init (cls f) (_num_vars f) (_default f);
                     l ← np_binary op (_values f) (_values fo);
                     set_values result l;; ret result)%py s))) as Hbinary.
  { intros self o op. unfold bind at 1, try_except.
    destruct (Field_check_fields_compatible self o s) as [[[]|e] s1] eqn:Hck.
    - apply check_compatible_inv in Hck
        as (-> & fa & fb & Ha & Hb & Hcount & _ & _).
      unfold bind at 1. rewrite (get_object_run _ _ _ Ha).
      unfold bind at 1. rewrite (get_object_run _ _ _ Hb).
      destruct (Hs self fa Ha) as (Hn & va & Hva & Hla).
      destruct (Hs o fb Hb) as (_ & vb & Hvb & Hlb).
      apply well_formed_result; [done..|].
      intros s1 Hsub. right. exists (zip_with op va vb). split.
      + rewrite length_zip_with. lia.
      + apply np_binary_run; [by eapply lookup_weaken..|lia].
    - pose proof (check_compatible_state s self o) as Hst.
      rewrite Hck in Hst. simpl in Hst. subst s1. by destruct e. }
  destruct c as [self other|self other|self other|self other|self|self]; simpl.
  - destruct other as [o|v|]; simpl; [apply Hbinary| |done].
    unfold bind at 1, get_object.
    destruct (objects s !! self) as [f|] eqn:Hf; [|done].
    case_decide; [done|]. by apply (Hconst self).
  - destruct other as [o|v|]; simpl; [apply Hbinary| |done].
    unfold bind at 1, get_object.
    destruct (objects s !! self) as [f|] eqn:Hf; [|done].
    case_decide; [done|]. by apply (Hconst self).
  - unfold Field_mul. destruct (is_Scalar other) as [k|]; [|done].
    unfold bind at 1, get_object.
    destruct (objects s !! self) as [f|] eqn:Hf; [|done]. by apply (Hunary self).
  - unfold Field_truediv. destruct (is_Scalar other) as [k|]; [|done].
    unfold bind at 1, get_object.
    destruct (objects s !! self) as [f|] eqn:Hf; [|done].
    destruct (Hs self f Hf) as (Hn & vs & Hvs & Hlen).
    apply well_formed_result; [done..|].
    intros s1 Hsub. unfold np_divide, bind.
    rewrite (read_array_run s1 _ vs) by by eapply lookup_weaken.
    destruct (elementwise _ vs) as [ys|e] eqn:Hdiv; [right|left; by eexists].
    exists ys. split; [|done]. apply elementwise_length in Hdiv. lia.
  - unfold Field_neg, bind at 1, get_object.
    destruct (objects s !! self) as [f|] eqn:Hf; [|done]. by apply (Hunary self).
  - unfold Field_abs, bind at 1, get_object.
    destruct (objects s !! self) as [f|] eqn:Hf; [|done]. by apply (Hunary self).
Qed.

(** [len(values) == count] is an invariant: it holds of the empty heap and
    after any program of constructions, [set], [for_each], [at], [assign]
    and arithmetic operators, whether the calls return or raise. *)
Theorem well_formed_invariant :
  well_formed (@empty_state V) ∧
  ∀ (cs : list (any_call V)) s,
    well_formed s → well_formed (run_program cs s).
Proof.
  split; [apply well_formed_empty|].
  induction cs as [|c cs IH]; intros s Hs; simpl; [done|].
  apply IH. destruct c as [c|c]; simpl; [by apply well_formed_perform|].
  unfold bind. pose proof (well_formed_perform_arith s c Hs).
  by destruct (perform_arith c s) as [[r|e] s1].
Qed.

End WellFormed.

(** ** Indexed writes and iteration *)

Section Setitem.
Context {V : Type} `{VariableLike V}.
Implicit Types (s : State V) (f : FieldObj V) (vs : list V).

Lemma normalize_index_mod (n : nat) (index : Z) :
  - Z.of_nat n ≤ index < Z.of_nat n →
  normalize_index n index = Some (Z.to_nat (index `mod` Z.of_nat n)).
Proof.
  intros Hr. destruct (Z.lt_ge_cases index 0).
  - rewrite normalize_index_neg by lia. f_equal. f_equal.
    apply Z.mod_unique with (-1); lia.
  - rewrite normalize_index_nonneg by lia. by rewrite Z.mod_small by lia.
Qed.

Lemma Field_setitem_run s (self : ref) f vs (index : Z) (value : V) (k : nat) :
  objects s !! self = Some f →
  arrays s !! _values f = Some vs →
  var_type value = type f →
  normalize_index (length vs) index = Some k →
  Field_setitem self index value s =
    (Ok tt, mkState (objects s) (<[_values f := <[k := value]> vs]> (arrays s))
                    (calls s)).
Proof.
  intros Hf Hvs Hty Hk. unfold Field_setitem, bind.
  rewrite (get_object_run _ _ _ Hf). case_decide; [done|].
  unfold np_setitem, bind.
  by rewrite (read_array_run _ _ _ Hvs), Hk.
Qed.

(** Write then read: a value of the field's type stored at an index of
    [-count, count) is what the same index reads afterwards; it lands in
    slot [index mod count]; the other slots of the field, and every field
    that holds another array, read as before. *)
Theorem Field_setitem_then_getitem s (self : ref) f vs (index : Z) (value : V) :
  objects s !! self = Some f →
  arrays s !! _values f = Some vs →
  var_type value = type f →
  - Z.of_nat (length vs) ≤ index < Z.of_nat (length vs) →
  ∃ s',
    Field_setitem self index value s = (Ok tt, s') ∧
    objects s' = objects s ∧
    Field_getitem self index s' = (Ok value, s') ∧
    Field_getitem self (index `mod` Z.of_nat (length vs)) s' = (Ok value, s') ∧
    (∀ j, 0 ≤ j < Z.of_nat (length vs) →
          j ≠ index `mod` Z.of_nat (length vs) →
          fst (Field_getitem self j s') = fst (Field_getitem self j s)) ∧
    (∀ (other : ref) fo (j : Z),
       objects s !! other = Some fo → _values fo ≠ _values f →
       fst (Field_getitem other j s') = fst (Field_getitem other j s)).
Proof.
  intros Hf Hvs Hty Hr.
  pose proof (normalize_index_mod _ _ Hr) as Hk.
  set (k := Z.to_nat (index `mod` Z.of_nat (length vs))) in *.
  assert (k < length vs)%nat as Hlt by by eapply normalize_index_lt.
  eexists. split; [by eapply Field_setitem_run|]. split; [done|].
  set (s' := mkState _ _ _).
  assert (arrays s' !! _values f = Some (<[k := value]> vs)) as Hvs'
    by apply lookup_insert_eq.
  assert (0 ≤ index `mod` Z.of_nat (length vs) < Z.of_nat (length vs)) as Hm
    by (apply Z.mod_pos_bound; lia).
  split; [|split; [|split]].
  - rewrite (Field_getitem_run s' self f _ index Hf Hvs').
    by rewrite length_insert, Hk, list_lookup_insert_eq.
  - rewrite (Field_getitem_run s' self f _ _ Hf Hvs').
    rewrite length_insert, normalize_index_nonneg by done.
    by rewrite list_lookup_insert_eq.
  - intros j Hj Hne.
    rewrite (Field_getitem_run s' self f _ j Hf Hvs').
    rewrite (Field_getitem_run s self f _ j Hf Hvs).
    rewrite length_insert, normalize_index_nonneg by done.
    rewrite list_lookup_insert_ne; [done|]. unfold k. lia.
  - intros other fo j Hfo Hne.
    destruct (arrays s !! _values fo) as [ws|] eqn:Hws.
    + assert (arrays s' !! _values fo = Some ws) as Hws'
        by (simpl; by rewrite lookup_insert_ne).
      rewrite (Field_getitem_run s' other fo ws j Hfo Hws').
      by rewrite (Field_getitem_run s other fo ws j Hfo Hws).
    + unfold Field_getitem, bind.
      rewrite (get_object_run s' _ _ Hfo), (get_object_run s _ _ Hfo).
      unfold np_getitem, bind, read_array. simpl.
      rewrite lookup_insert_ne by done. by rewrite Hws.
Qed.

(** An index outside [-count, count) is refused by [__setitem__] with
    IndexError, once the type check has passed; nothing is written. *)
Theorem Field_setitem_out_of_range s (self : ref) f vs (index : Z) (value : V) :
  objects s !! self = Some f →
  arrays s !! _values f = Some vs →
  var_type value = type f →
  ¬ (- Z.of_nat (length vs) ≤ index < Z.of_nat (length vs)) →
  Field_setitem self index value s = (Raise IndexError, s).
Proof.
  intros Hf Hvs Hty Hr. unfold Field_setitem, bind.
  rewrite (get_object_run _ _ _ Hf). case_decide; [done|].
  unfold np_setitem, bind. rewrite (read_array_run _ _ _ Hvs).
  by rewrite (proj2 (normalize_index_None _ _) Hr).
Qed.

Lemma collect_getitem s (l : loc) vs :
  arrays s !! l = Some vs →
  ∀ (m k : nat), (k + m ≤ length vs)%nat →
    collect (Z.of_nat <$> seq k m) (λ i, np_getitem l i) s
    = (Ok (take m (drop k vs)), s).
Proof.
  intros Hvs. induction m as [|m IH]; intros k Hk; simpl; [done|].
  destruct (lookup_lt_is_Some_2 vs k) as [x Hx]; [lia|].
  unfold bind. rewrite (np_getitem_run _ _ _ _ Hvs).
  rewrite normalize_index_nonneg, Nat2Z.id, Hx by lia.
  rewrite IH by lia. unfold ret.
  by rewrite (drop_S _ _ _ Hx).
Qed.

Lemma Field_iter_run s (self : ref) f vs :
  objects s !! self = Some f →
  arrays s !! _values f = Some vs →
  length vs = Z.to_nat (_num_vars f) →
  Field_iter self s = (Ok vs, s).
Proof.
  intros Hf Hvs Hlen. unfold Field_iter, bind, range.
  rewrite (get_object_run _ _ _ Hf).
  rewrite (collect_getitem s _ vs Hvs) by lia.
  by rewrite drop_0, <- Hlen, firstn_all.
Qed.

(** Iterating over a field yields its stored values, first to last, and
    leaves the heap as it was. *)
Theorem Field_iter_spec s (self : ref) f vs :
  objects s !! self = Some f →
  arrays s !! _values f = Some vs →
  length vs = Z.to_nat (_num_vars f) →
  Field_iter self s = (Ok vs, s).
Proof. apply Field_iter_run. Qed.

End Setitem.

(** ** What [for_each] and [at] leave in the slots *)

Section Loops.
Context {V : Type} `{VariableLike V}.
Implicit Types (s : State V) (f : FieldObj V) (vs : list V).

Lemma visit_exact s (self : ref) f vs (g : V → pyobj V) (k : nat) (x : V) :
  objects s !! self = Some f →
  arrays s !! _values f = Some vs →
  vs !! k = Some x →
  visit self g (Z.of_nat k) s =
    (Ok tt, mkState (objects s)
                    (<[_values f := <[k := write_back f g x]> vs]> (arrays s))
                    (calls s ++ [(Z.of_nat k, x)])).
Proof.
  intros Hf Hvs Hx. apply lookup_lt_Some in Hx as Hlt.
  unfold visit, bind at 1. rewrite (get_object_run _ _ _ Hf).
  unfold bind at 1. rewrite (np_getitem_run _ _ _ _ Hvs).
  rewrite normalize_index_nonneg, Nat2Z.id, Hx by lia.
  unfold bind at 1, call, write_back.
  assert (<[_values f := <[k := x]> vs]> (arrays s) = arrays s) as Hid
    by by rewrite list_insert_id, insert_id.
  destruct (g x) as [v|]; [|by rewrite Hid].
  case_decide; [|by rewrite Hid].
  unfold np_setitem, bind.
  rewrite (read_array_run (mkState _ _ _) _ vs Hvs).
  by rewrite normalize_index_nonneg, Nat2Z.id by lia.
Qed.

Lemma at_loop (self : ref) f (g : V → pyobj V) (indexes : list Z) :
  ∀ s vs,
    objects s !! self = Some f →
    arrays s !! _values f = Some vs →
    (∀ i, i ∈ indexes → 0 ≤ i < Z.of_nat (length vs)) →
    ∃ vs' log,
      for_in indexes (visit self g) s =
        (Ok tt, mkState (objects s) (<[_values f := vs']> (arrays s))
                        (calls s ++ log)) ∧
      length vs' = length vs ∧
      log.*1 = indexes ∧
      (∀ k : nat, Z.of_nat k ∉ indexes → vs' !! k = vs !! k) ∧
      (NoDup indexes →
         (∀ k : nat, Z.of_nat k ∈ indexes →
                     vs' !! k = write_back f g <$> vs !! k) ∧
         (∀ i x, (i, x) ∈ log → vs !! Z.to_nat i = Some x)).
Proof.
  induction indexes as [|j rest IH]; intros s vs Hf Hvs Hin.
  - exists vs, []. simpl. split.
    { unfold ret. rewrite insert_id, app_nil_r by done. by destruct s. }
    split; [done|]. split; [done|]. split; [done|].
    intros _. split; [by intros k ?%elem_of_nil | by intros i x ?%elem_of_nil].
  - assert (0 ≤ j < Z.of_nat (length vs)) as Hj by (apply Hin; left).
    destruct (lookup_lt_is_Some_2 vs (Z.to_nat j)) as [x Hx]; [lia|].
    pose proof (visit_exact s self f vs g (Z.to_nat j) x Hf Hvs Hx) as Hvisit.
    rewrite Z2Nat.id in Hvisit by lia.
    set (vs1 := <[Z.to_nat j := write_back f g x]> vs) in *.
    set (s1 := mkState (objects s) (<[_values f := vs1]> (arrays s))
                       (calls s ++ [(j, x)])) in *.
    destruct (IH s1 vs1) as (vs' & log & Hrun & Hlen & Hlog & Hout & Hnd).
    { done. }
    { apply lookup_insert_eq. }
    { intros i Hi. unfold vs1. rewrite length_insert. apply Hin. by right. }
    exists vs', ((j, x) :: log). split.
    { simpl. unfold bind. rewrite Hvisit, Hrun. simpl.
      by rewrite insert_insert_eq, <- app_assoc. }
    split; [by rewrite Hlen; unfold vs1; rewrite length_insert|].
    split; [by simpl; f_equal|].
    split.
    { intros k [Hkj Hk]%not_elem_of_cons. rewrite (Hout k Hk).
      unfold vs1. apply list_lookup_insert_ne. lia. }
    intros [Hjr Hrest]%NoDup_cons. destruct (Hnd Hrest) as [Hin' Harg]. split.
    + intros k [Hk|Hk]%elem_of_cons.
      * subst j. rewrite (Hout k Hjr). unfold vs1.
        rewrite Nat2Z.id in *.
        rewrite list_lookup_insert_eq by by eapply lookup_lt_Some.
        by rewrite Hx.
      * rewrite (Hin' k Hk). unfold vs1.
        rewrite list_lookup_insert_ne; [done|].
        intros Heq. apply Hjr. rewrite <- Heq in Hk.
        by rewrite Z2Nat.id in Hk by lia.
    + intros i y [[= -> ->]|Hiy]%elem_of_cons; [done|].
      pose proof (Harg i y Hiy) as Hy.
      assert (i ∈ rest) as Hi.
      { rewrite <- Hlog. apply list_elem_of_fmap. by exists (i, y). }
      unfold vs1 in Hy. rewrite list_lookup_insert_ne in Hy; [done|].
      intros Heq. apply Hjr.
      assert (0 ≤ i) by (apply (Hin i); by right).
      replace j with i by lia. done.
Qed.

(** [at] on a non-empty list of in-range indices: the slots that are not
    in the list keep their value; when no index is repeated, every listed
    slot holds the transform's result if that is a Variable of the field's
    type, and its old value otherwise.  No other array is touched. *)
Theorem Field_at_spec s (self : ref) f vs (indexes : list Z) (g : V → pyobj V) :
  objects s !! self = Some f →
  arrays s !! _values f = Some vs →
  length vs = Z.to_nat (_num_vars f) →
  indexes ≠ [] →
  (∀ i, i ∈ indexes → 0 ≤ i < _num_vars f) →
  ∃ s' vs',
    Field_at self indexes (Callable g) s = (Ok tt, s') ∧
    objects s' = objects s ∧
    arrays s' = <[_values f := vs']> (arrays s) ∧
    length vs' = length vs ∧
    (∀ k : nat, Z.of_nat k ∉ indexes → vs' !! k = vs !! k) ∧
    (NoDup indexes →
       ∀ k : nat, Z.of_nat k ∈ indexes →
                  vs' !! k = write_back f g <$> vs !! k).
Proof.
  intros Hf Hvs Hlen Hne Hin.
  destruct (at_loop self f g indexes s vs Hf Hvs) as
    (vs' & log & Hrun & Hlen' & _ & Hout & Hnd).
  { intros i Hi. specialize (Hin i Hi). lia. }
  exists (mkState (objects s) (<[_values f := vs']> (arrays s)) (calls s ++ log)),
    vs'.
  split; [|split; [|split; [|split; [|split]]]];
    [|reflexivity|reflexivity|done|done|intros Hd; by apply Hnd].
  destruct indexes as [|x rest]; [done|].
  unfold Field_at, bind. simpl py_min. simpl py_max. cbv beta iota.
  unfold ret at 1 2. rewrite (get_object_run _ _ _ Hf).
  pose proof (Hin _ (foldl_min_elem x rest)).
  pose proof (Hin _ (foldl_max_elem x rest)).
  destruct (Z.ltb_spec (foldl Z.min x rest) 0); [lia|].
  destruct (Z.geb_spec (foldl Z.max x rest) (_num_vars f)); [lia|].
  exact Hrun.
Qed.

Lemma NoDup_range (n : Z) : NoDup (range n).
Proof.
  unfold range. apply NoDup_fmap_2; [apply Nat2Z.inj'|apply NoDup_seq].
Qed.

Lemma elem_of_range (n i : Z) : i ∈ range n ↔ 0 ≤ i < n.
Proof.
  unfold range. rewrite list_elem_of_fmap. split.
  - intros (k & -> & Hk%elem_of_seq). lia.
  - intros Hi. exists (Z.to_nat i). split; [lia|]. apply elem_of_seq. lia.
Qed.

(** [for_each] on a field: the transform is called once per slot, from the
    first to the last, on the value the slot held; afterwards each slot
    holds the transform's result if that is a Variable of the field's type,
    and its old value otherwise.  No other array is touched. *)
Theorem Field_for_each_spec s (self : ref) f vs (g : V → pyobj V) :
  objects s !! self = Some f →
  arrays s !! _values f = Some vs →
  length vs = Z.to_nat (_num_vars f) →
  ∃ s' log,
    Field_for_each self (Callable g) s = (Ok tt, s') ∧
    objects s' = objects s ∧
    arrays s' = <[_values f := write_back f g <$> vs]> (arrays s) ∧
    calls s' = calls s ++ log ∧
    log.*1 = range (_num_vars f) ∧ log.*2 = vs.
Proof.
  intros Hf Hvs Hlen.
  destruct (at_loop self f g (range (_num_vars f)) s vs Hf Hvs) as
    (vs' & log & Hrun & Hlen' & Hlog & Hout & Hnd).
  { intros i Hi%elem_of_range. lia. }
  destruct (Hnd (NoDup_range _)) as [Hin Harg].
  assert (vs' = write_back f g <$> vs) as ->.
  { apply list_eq. intros k. rewrite list_lookup_fmap.
    destruct (decide (k < length vs)%nat) as [Hk|Hk].
    - apply Hin, elem_of_range. lia.
    - rewrite (lookup_ge_None_2 vs k), (lookup_ge_None_2 vs' k) by lia. done. }
  assert (log.*2 = vs) as Hargs.
  { apply list_eq. intros k. rewrite list_lookup_fmap.
    assert (length log = length vs) as Hll.
    { rewrite <- (length_fmap fst log), Hlog. unfold range.
      rewrite length_fmap, length_seq. lia. }
    destruct (log !! k) as [[i x]|] eqn:Hk; simpl.
    - apply lookup_lt_Some in Hk as Hlt.
      assert (log.*1 !! k = Some i) as Hi by by rewrite list_lookup_fmap, Hk.
      rewrite Hlog in Hi. unfold range in Hi.
      rewrite list_lookup_fmap, lookup_seq_lt in Hi by lia.
      injection Hi as <-.
      rewrite <- (Nat2Z.id k) at 1. symmetry. apply Harg.
      apply list_elem_of_lookup. by exists k.
    - apply lookup_ge_None in Hk. symmetry. apply lookup_ge_None. lia. }
  exists (mkState (objects s) (<[_values f := write_back f g <$> vs]> (arrays s))
                  (calls s ++ log)), log.
  split; [|done].
  unfold Field_for_each, bind. by rewrite (get_object_run _ _ _ Hf).
Qed.

End Loops.

(** ** Compatibility and assignment *)

Section Assign.
Context {V : Type} `{VariableLike V}.
Implicit Types (s : State V) (f g fa fb fo : FieldObj V) (vs : list V).

Lemma domain_inj f g : domain f = domain g ↔ cls f = cls g.
Proof.
  unfold domain. split; [|by intros ->].
  by destruct (cls f), (cls g).
Qed.

Lemma check_compatible_ok s (a b : ref) fa fb :
  objects s !! a = Some fa → objects s !! b = Some fb →
  compatible fa fb →
  Field_check_fields_compatible a b s = (Ok tt, s).
Proof.
  intros Ha Hb (Hn & Ht & Hc). apply (check_compatible_run s a b fa fb); try done.
  by apply domain_inj.
Qed.

Lemma check_incompatible s (a b : ref) fa fb :
  objects s !! a = Some fa → objects s !! b = Some fb →
  ¬ compatible fa fb →
  Field_check_fields_compatible a b s =
    (Raise (if decide (_num_vars fa = _num_vars fb) then TypeError else ValueError), s).
Proof.
  intros Ha Hb Hnc. unfold Field_check_fields_compatible, bind.
  rewrite (get_object_run _ _ _ Ha), (get_object_run _ _ _ Hb).
  repeat case_decide; try done.
  exfalso. apply Hnc. unfold compatible.
  split; [done|]. split; [done|]. by apply domain_inj.
Qed.

(** Fields that differ in count, type or variant are refused by [assign],
    [+] and [-] with TypeError, and nothing is changed; a differing count is
    reported by [_check_fields_compatible] itself as ValueError, which the
    three callers turn into TypeError. *)
Theorem incompatible_fields_refused s (a b : ref) fa fb :
  objects s !! a = Some fa →
  objects s !! b = Some fb →
  ¬ compatible fa fb →
  Field_assign a (OpField b) s = (Raise TypeError, s) ∧
  Field_add a (OpField b) s = (Raise TypeError, s) ∧
  Field_sub a (OpField b) s = (Raise TypeError, s) ∧
  (_num_vars fa ≠ _num_vars fb →
   Field_check_fields_compatible a b s = (Raise ValueError, s)).
Proof.
  intros Ha Hb Hnc. pose proof (check_incompatible s a b fa fb Ha Hb Hnc) as Hck.
  repeat split.
  - simpl. unfold bind, try_except. rewrite Hck. by case_decide.
  - simpl. unfold bind, try_except. rewrite Hck. by case_decide.
  - simpl. unfold bind, try_except. rewrite Hck. by case_decide.
  - intros Hne. rewrite Hck. by case_decide.
Qed.

Lemma Field_assign_field_run s (self other : ref) f fo :
  objects s !! self = Some f →
  objects s !! other = Some fo →
  compatible f fo →
  Field_assign self (OpField other) s =
    (Ok tt, mkState (<[self := mkField (cls f) (_num_vars f) (_default f) (_values fo)]>
                       (objects s))
                    (arrays s) (calls s)).
Proof.
  intros Hf Hfo Hc. simpl. unfold bind at 1, try_except.
  rewrite (check_compatible_ok s self other f fo Hf Hfo Hc).
  unfold bind. rewrite (get_object_run _ _ _ Hfo).
  by rewrite (set_values_run _ _ _ _ Hf).
Qed.

(** [assign] from a compatible field makes the target read as the source
    does, by making it hold the source's own array: from then on a value
    stored through either field is read through the other. *)
Theorem Field_assign_field_spec s (self other : ref) f fo vo :
  objects s !! self = Some f →
  objects s !! other = Some fo →
  arrays s !! _values fo = Some vo →
  compatible f fo →
  ∃ s',
    Field_assign self (OpField other) s = (Ok tt, s') ∧
    arrays s' = arrays s ∧
    (∀ j, fst (Field_getitem self j s') = fst (Field_getitem other j s)) ∧
    (∀ (index : Z) (value : V),
       var_type value = type fo →
       - Z.of_nat (length vo) ≤ index < Z.of_nat (length vo) →
       (∃ s'', Field_setitem other index value s' = (Ok tt, s'') ∧
               Field_getitem self index s'' = (Ok value, s'')) ∧
       (∃ s'', Field_setitem self index value s' = (Ok tt, s'') ∧
               Field_getitem other index s'' = (Ok value, s''))).
Proof.
  intros Hf Hfo Hvo Hc.
  eexists. split; [by apply Field_assign_field_run|].
  set (f' := mkField (cls f) (_num_vars f) (_default f) (_values fo)).
  set (s' := mkState _ _ _).
  assert (objects s' !! self = Some f') as Hself by apply lookup_insert_eq.
  assert (∃ fo', objects s' !! other = Some fo' ∧ _values fo' = _values fo ∧
                 type fo' = type fo) as (fo' & Hother & Hval & Hty).
  { destruct (decide (other = self)) as [->|Hne].
    - exists f'. split; [done|]. split; [done|]. apply Hc.
    - exists fo. split; [|done]. simpl. by rewrite lookup_insert_ne. }
  assert (type f' = type fo) as Hty' by apply Hc.
  split; [done|]. split.
  - intros j.
    rewrite (Field_getitem_run s' self f' vo j Hself Hvo).
    by rewrite (Field_getitem_run s other fo vo j Hfo Hvo).
  - intros index value Htyv Hr.
    pose proof (normalize_index_mod _ _ Hr) as Hk.
    set (k := Z.to_nat (index `mod` Z.of_nat (length vo))) in *.
    assert (k < length vo)%nat as Hlt by by eapply normalize_index_lt.
    split.
    + eexists. split.
      * apply (Field_setitem_run s' other fo' vo index value k Hother);
          [by rewrite Hval|congruence|exact Hk].
      * erewrite Field_getitem_run.
        2: { simpl. apply lookup_insert_eq. }
        2: { simpl. rewrite Hval. apply lookup_insert_eq. }
        by rewrite length_insert, Hk, list_lookup_insert_eq.
    + eexists. split.
      * apply (Field_setitem_run s' self f' vo index value k Hself);
          [done|congruence|exact Hk].
      * erewrite Field_getitem_run.
        2: { simpl. exact Hother. }
        2: { simpl. rewrite Hval. apply lookup_insert_eq. }
        by rewrite length_insert, Hk, list_lookup_insert_eq.
Qed.

(** [assign] from a Variable of the field's type gives the field a new
    array filled with that value; the fields that shared its former array
    no longer share with it, and every other field reads as before. *)
Theorem Field_assign_variable_spec s (self : ref) f (v : V) :
  objects s !! self = Some f →
  0 ≤ _num_vars f →
  var_type v = type f →
  ∃ s',
    Field_assign self (OpVariable v) s = (Ok tt, s') ∧
    Field_iter self s' = (Ok (replicate (Z.to_nat (_num_vars f)) v), s') ∧
    Field_len self s' = (Ok (_num_vars f), s') ∧
    (∀ (other : ref) fo vo,
       other ≠ self → objects s !! other = Some fo →
       arrays s !! _values fo = Some vo →
       objects s' !! other = Some fo ∧ arrays s' !! _values fo = Some vo ∧
       ∀ (index : Z) (value : V),
         fst (Field_getitem other index (snd (Field_setitem self index value s')))
         = fst (Field_getitem other index s)).
Proof.
  intros Hf Hn Hty. simpl. unfold bind at 1. rewrite (get_object_run _ _ _ Hf).
  case_decide; [done|].
  unfold bind at 1, np_full. destruct (Z.ltb_spec (_num_vars f) 0); [lia|].
  unfold new_array.
  set (l := fresh (dom (arrays s))).
  set (vs := replicate (Z.to_nat (_num_vars f)) v).
  set (s1 := mkState (objects s) (<[l := vs]> (arrays s)) (calls s)).
  rewrite (set_values_run s1 self f l Hf).
  set (f' := mkField (cls f) (_num_vars f) (_default f) l).
  set (s' := mkState _ _ _).
  assert (objects s' !! self = Some f') as Hself by apply lookup_insert_eq.
  assert (arrays s' !! l = Some vs) as Hl by apply lookup_insert_eq.
  assert (arrays s !! l = None) as Hfresh by apply fresh_array.
  eexists. split; [reflexivity|]. split; [|split].
  - apply (Field_iter_run s' self f' vs Hself Hl). apply length_replicate.
  - unfold Field_len, bind. by rewrite (get_object_run _ _ _ Hself).
  - intros other fo vo Hne Hfo Hvo.
    assert (_values fo ≠ l) as Hloc by congruence.
    assert (objects s' !! other = Some fo) as Hfo'
      by (simpl; by rewrite lookup_insert_ne).
    assert (arrays s' !! _values fo = Some vo) as Hvo'
      by (simpl; by rewrite lookup_insert_ne).
    split; [done|]. split; [done|].
    intros index value.
    rewrite (Field_getitem_run s other fo vo index Hfo Hvo).
    unfold Field_setitem, bind. rewrite (get_object_run _ _ _ Hself).
    case_decide;
      [unfold raise; cbn [snd];
       by rewrite (Field_getitem_run s' other fo vo index Hfo' Hvo')|].
    change (_values f') with l.
    unfold np_setitem, bind. rewrite (read_array_run _ _ _ Hl).
    destruct (normalize_index (length vs) index) as [k|];
      [|unfold lift, raise; cbn [snd];
        by rewrite (Field_getitem_run s' other fo vo index Hfo' Hvo')].
    unfold lift, ret, write_array. cbn [snd].
    erewrite (Field_getitem_run _ other fo vo index).
    + done.
    + done.
    + simpl. by rewrite lookup_insert_ne.
Qed.

End Assign.

(** ** Operators with a Variable operand, scaling, and what operators allocate *)

Section Operators.
Context {V : Type} `{VariableLike V} `{VariableDiv V}.
Implicit Types (s : State V) (f g fa fb fo : FieldObj V) (vs : list V).

Lemma constant_tail_run s (self : ref) f vs (op : V → V → V) (v : V) :
  objects s !! self = Some f →
  arrays s !! _values f = Some vs →
  0 < _num_vars f → length vs = Z.to_nat (_num_vars f) →
  arith_result s [self] f ((λ x, op x v) <$> vs)
    ((result ← Field_init (cls f) (_num_vars f) (_default f);
      xs ← read_array (_values f);
      ys ← np_vectorize (λ x, op x v) xs;
      l ← new_array ys;
      set_values result l;; ret result)%py s).
Proof.
  intros Hf Hvs Hn Hlen.
  rewrite (bind_ext _ _
             (λ result,
                l ← (xs ← read_array (_values f);
                     ys ← np_vectorize (λ x, op x v) xs; new_array ys);
                set_values result l;; ret result)%py).
  2: { intros r s'. unfold bind.
       destruct (read_array (_values f) s') as [[[|x xs]|e] s'']; done. }
  apply arith_result_intro; [lia| |].
  - intros s1 Hsub. unfold bind.
    rewrite (read_array_run s1 _ vs) by by eapply lookup_weaken.
    destruct vs; [simpl in Hlen; lia | reflexivity].
  - intros a ->%list_elem_of_singleton. eauto.
Qed.

(** [field + value] and [field - value] on a field of positive count: a
    Variable of the field's type gives a new field whose slots are the old
    ones combined with the value, the operand field being left as it was;
    a Variable of another type, or any other object, is refused with
    TypeError and nothing is changed. *)
Theorem Field_add_sub_variable_spec s (self : ref) f vs (v : V) :
  objects s !! self = Some f →
  arrays s !! _values f = Some vs →
  0 < _num_vars f → length vs = Z.to_nat (_num_vars f) →
  (var_type v = type f →
     arith_result s [self] f ((λ x, var_add x v) <$> vs)
       (Field_add self (OpVariable v) s) ∧
     arith_result s [self] f ((λ x, var_sub x v) <$> vs)
       (Field_sub self (OpVariable v) s)) ∧
  (var_type v ≠ type f →
     Field_add self (OpVariable v) s = (Raise TypeError, s) ∧
     Field_sub self (OpVariable v) s = (Raise TypeError, s)) ∧
  Field_add self OpOther s = (Raise TypeError, s) ∧
  Field_sub self OpOther s = (Raise TypeError, s).
Proof.
  intros Hf Hvs Hn Hlen. split; [|split; [|done]].
  - intros Hty. split; simpl; unfold bind at 1;
      rewrite (get_object_run _ _ _ Hf); (case_decide; [done|]);
      by apply constant_tail_run.
  - intros Hty. split; simpl; unfold bind;
      rewrite (get_object_run _ _ _ Hf); by case_decide.
Qed.

(** [field * k] and [field / k] for a Scalar [k], on any field (of count
    zero too).  [*] returns a new field of the same class, count and default
    whose slots are the old ones multiplied by [k].  [/] returns such a
    field of the quotients when the division of every slot returns; when the
    division of a slot raises (a zero divisor, if the value type raises on
    it), [/] raises that exception.  In all cases the operand field reads as
    before, and [/] refuses what is not a Scalar with TypeError, as [*]
    does. *)
Theorem Field_scaling_spec s (self : ref) f vs (k : V) :
  objects s !! self = Some f →
  arrays s !! _values f = Some vs →
  0 ≤ _num_vars f →
  var_type k = KScalar →
  arith_result s [self] f ((λ x, var_mul x k) <$> vs)
    (Field_mul self (OpVariable k) s) ∧
  (∀ ys, Forall2 (λ x y, var_div x k = Ok y) vs ys →
         arith_result s [self] f ys (Field_truediv self (OpVariable k) s)) ∧
  (∀ e, elementwise (λ x, var_div x k) vs = Raise e →
        fst (Field_truediv self (OpVariable k) s) = Raise e ∧
        ∀ j, fst (Field_getitem self j
                    (snd (Field_truediv self (OpVariable k) s)))
             = fst (Field_getitem self j s)) ∧
  (∀ other, is_Scalar other = None →
            Field_truediv self other s = (Raise TypeError, s)).
Proof.
  intros Hf Hvs Hn Hk.
  assert (is_Scalar (OpVariable k) = Some k) as Hsc
    by (simpl; by case_decide).
  assert (∀ a, a ∈ [self] →
     ∃ fa va, objects s !! a = Some fa ∧ arrays s !! _values fa = Some va) as Hops
    by (intros a ->%list_elem_of_singleton; eauto).
  split; [|split; [|split]].
  - unfold Field_mul. rewrite Hsc. unfold bind at 1.
    rewrite (get_object_run _ _ _ Hf).
    apply arith_result_intro; [done| |done].
    intros s1 Hs1. eapply np_unary_run. by eapply lookup_weaken.
  - intros ys Hys%elementwise_Forall2.
    unfold Field_truediv. rewrite Hsc. unfold bind at 1.
    rewrite (get_object_run _ _ _ Hf).
    apply arith_result_intro; [done| |done].
    intros s1 Hs1. unfold np_divide, bind.
    rewrite (read_array_run s1 _ vs) by by eapply lookup_weaken.
    by rewrite Hys.
  - intros e He.
    assert (Field_truediv self (OpVariable k) s =
            (Raise e, snd (Field_init (cls f) (_num_vars f) (_default f) s)))
      as ->.
    { unfold Field_truediv. rewrite Hsc. unfold bind at 1.
      rewrite (get_object_run _ _ _ Hf).
      unfold bind at 1. rewrite Field_init_run by done. cbv beta iota.
      unfold bind at 1, np_divide, bind.
      erewrite read_array_run.
      2: { simpl. rewrite lookup_insert_ne; [exact Hvs|].
           intros Heq. pose proof (fresh_array s). congruence. }
      by rewrite He. }
    split; [done|]. intros j. rewrite Field_init_run by done. cbn [snd].
    rewrite (Field_getitem_run s self f vs j Hf Hvs).
    erewrite Field_getitem_run; [done| |].
    + simpl. rewrite lookup_insert_ne; [exact Hf|].
      intros Heq. pose proof (fresh_object s). congruence.
    + simpl. rewrite lookup_insert_ne; [exact Hvs|].
      intros Heq. pose proof (fresh_array s). congruence.
  - intros other Hother. unfold Field_truediv. by rewrite Hother.
Qed.

Lemma result_tail_fresh s (c : FieldClass) (n : Z) (d : V) (X : M loc)
    (r : ref) s' :
  (∀ s1 l s2, X s1 = (Ok l, s2) → ∃ vals, X s1 = new_array vals s1) →
  (result ← Field_init c n d; l ← X; set_values result l;; ret result)%py s
    = (Ok r, s') →
  ∃ vals, new_field s s' r c n d vals.
Proof.
  intros HX.
  destruct (Z.ltb_spec n 0) as [Hneg|Hn].
  { unfold bind, Field_init, bind, np_full.
    by destruct (Z.ltb_spec n 0); [|lia]. }
  unfold bind at 1. rewrite Field_init_run by done. cbv beta iota.
  match goal with |- bind X _ ?st = _ → _ => set (s1 := st) end.
  destruct (X s1) as [[l|e] s2] eqn:HXs.
  2: { unfold bind at 1. by rewrite HXs. }
  destruct (HX s1 l s2 HXs) as [vals Hnew].
  destruct (result_field_run s c n d (new_array vals) vals Hn (λ _ _, eq_refl))
    as (r0 & s0 & Hrun0 & Hnf).
  revert Hrun0. unfold bind at 1. rewrite Field_init_run by done.
  cbv beta iota. fold s1.
  unfold bind at 1. rewrite <- Hnew, HXs. intros Hrun0.
  unfold bind at 1. rewrite HXs. rewrite Hrun0. intros [= <- <-]. eauto.
Qed.

Lemma np_binary_is_new (op : V → V → V) (l1 l2 : loc) s1 (l : loc) s2 :
  np_binary op l1 l2 s1 = (Ok l, s2) →
  ∃ vals, np_binary op l1 l2 s1 = new_array vals s1.
Proof.
  unfold np_binary, bind, read_array.
  destruct (arrays s1 !! l1) as [xs|]; [|done].
  destruct (arrays s1 !! l2) as [ys|]; [|done].
  case_decide; [by eauto|].
  destruct xs as [|x [|x' xs]], ys as [|y [|y' ys]]; try done; by eauto.
Qed.

Lemma np_unary_is_new (op : V → V) (l0 : loc) s1 (l : loc) s2 :
  np_unary op l0 s1 = (Ok l, s2) →
  ∃ vals, np_unary op l0 s1 = new_array vals s1.
Proof.
  unfold np_unary, bind, read_array.
  destruct (arrays s1 !! l0) as [xs|]; [by eauto|done].
Qed.

Lemma np_divide_is_new (l0 : loc) (k : V) s1 (l : loc) s2 :
  np_divide l0 k s1 = (Ok l, s2) →
  ∃ vals, np_divide l0 k s1 = new_array vals s1.
Proof.
  unfold np_divide, bind, read_array.
  destruct (arrays s1 !! l0) as [xs|]; [|done].
  destruct (elementwise _ xs) as [ys|e]; [by eauto|done].
Qed.

Lemma constant_tail_fresh s f (op : V → V → V) (v : V) (r : ref) s' :
  (result ← Field_init (cls f) (_num_vars f) (_default f);
   xs ← read_array (_values f);
   ys ← np_vectorize (λ x, op x v) xs;
   l ← new_array ys;
   set_values result l;; ret result)%py s = (Ok r, s') →
  ∃ vals, new_field s s' r (cls f) (_num_vars f) (_default f) vals.
Proof.
  rewrite (bind_ext _ _
             (λ result,
                l ← (xs ← read_array (_values f);
                     ys ← np_vectorize (λ x, op x v) xs; new_array ys);
                set_values result l;; ret result)%py).
  2: { intros r0 s0. unfold bind.
       destruct (read_array (_values f) s0) as [[[|x xs]|e] s'']; done. }
  apply result_tail_fresh. intros s1 l s2. unfold bind, read_array.
  destruct (arrays s1 !! _values f) as [[|x xs]|]; try done. by eauto.
Qed.

Lemma binary_tail_fresh s (self o : ref) (op : V → V → V) (r : ref) s' :
  (try_except (Field_check_fields_compatible self o) reraise_TypeError;;
   f ← get_object self;
   fo ← get_object o;
   result ← Field_init (cls f) (_num_vars f) (_default f);
   l ← np_binary op (_values f) (_values fo);
   set_values result l;; ret result)%py s = (Ok r, s') →
  ∃ c n d vals, new_field s s' r c n d vals.
Proof.
  unfold bind at 1, try_except.
  destruct (Field_check_fields_compatible self o s) as [[[]|e] s1] eqn:Hck.
  2: { by destruct e. }
  apply check_compatible_inv in Hck as (-> & fa & fb & Ha & Hb & _).
  unfold bind at 1. rewrite (get_object_run _ _ _ Ha).
  unfold bind at 1. rewrite (get_object_run _ _ _ Hb).
  intros Hrun. apply result_tail_fresh in Hrun as [vals Hnew]; [by eauto 6|].
  apply np_binary_is_new.
Qed.

Lemma perform_arith_fresh (c : arith_call V) s (r : ref) s' :
  perform_arith c s = (Ok r, s') →
  ∃ cl n d vals, new_field s s' r cl n d vals.
Proof.
  assert (∀ self (op : V → V),
    (f ← get_object self;
     result ← Field_init (cls f) (_num_vars f) (_default f);
     l ← np_unary op (_values f);
     set_values result l;; ret result)%py s = (Ok r, s') →
    ∃ cl n d vals, new_field s s' r cl n d vals) as Hunary.
  { intros self op. unfold bind at 1, get_object.
    destruct (objects s !! self) as [f|]; [|done].
    intros Hrun. apply result_tail_fresh in Hrun as [vals Hnew]; [by eauto 6|].
    apply np_unary_is_new. }
  assert (∀ self (op : V → V → V) (v : V),
    (f ← get_object self;
     if decide (var_type v ≠ var_type (_default f)) then raise TypeError
     else
       result ← Field_init (cls f) (_num_vars f) (_default f);
       xs ← read_array (_values f);
       ys ← np_vectorize (λ x, op x v) xs;
       l ← new_array ys;
       set_values result l;; ret result)%py s = (Ok r, s') →
    ∃ cl n d vals, new_field s s' r cl n d vals) as Hconst.
  { intros self op v. unfold bind at 1, get_object.
    destruct (objects s !! self) as [f|]; [|done].
    case_decide; [done|].
    intros [vals Hnew]%constant_tail_fresh. by eauto 6. }
  destruct c as [self other|self other|self other|self other|self|self]; simpl.
  - destruct other as [o|v|]; simpl; [apply binary_tail_fresh|apply Hconst|done].
  - destruct other as [o|v|]; simpl; [apply binary_tail_fresh|apply Hconst|done].
  - unfold Field_mul. destruct (is_Scalar other); [apply Hunary|done].
  - unfold Field_truediv. destruct (is_Scalar other) as [k|]; [|done].
    unfold bind at 1, get_object.
    destruct (objects s !! self) as [f|]; [|done].
    intros Hrun. apply result_tail_fresh in Hrun as [vals Hnew]; [by eauto 6|].
    apply np_divide_is_new.
  - apply Hunary.
  - apply Hunary.
Qed.


(** Operators allocate and never mutate: whenever [+], [-], [*], [/],
    unary [-] or [abs] returns, on whatever operand and heap, the field it
    returns and the array of that field did not exist before, and every
    object, every array and the call log that did are exactly as they
    were. *)
Theorem operators_only_allocate (c : arith_call V) s (r : ref) s' :
  perform_arith c s = (Ok r, s') →
  ∃ cl n d vals, new_field s s' r cl n d vals.
Proof. apply perform_arith_fresh. Qed.

End Operators.

(** ** New fields share no storage *)

Section Separation.
Context {V : Type} `{VariableLike V} `{VariableDiv V}.
Implicit Types (s : State V) (f g fa fb fo : FieldObj V) (vs : list V).

Lemma np_setitem_frame s (l l' : loc) (index : Z) (value : V) :
  l' ≠ l → arrays (snd (np_setitem l index value s)) !! l' = arrays s !! l'.
Proof.
  intros Hne. unfold np_setitem, bind, read_array.
  destruct (arrays s !! l) as [vs|]; [|done].
  destruct (normalize_index _ _) as [k|]; [|done]. simpl.
  by rewrite lookup_insert_ne.
Qed.

Lemma visit_frame s (self : ref) f (g : V → pyobj V) (i : Z) (l' : loc) :
  objects s !! self = Some f → l' ≠ _values f →
  objects (snd (visit self g i s)) = objects s ∧
  arrays (snd (visit self g i s)) !! l' = arrays s !! l'.
Proof.
  intros Hf Hne.
  destruct (visit self g i s) as [o s1] eqn:Hv. simpl. revert Hv.
  unfold visit, bind at 1. rewrite (get_object_run _ _ _ Hf).
  unfold bind at 1. pose proof (np_getitem_state s (_values f) i) as Hst.
  destruct (np_getitem (_values f) i s) as [[x|e] s2]; simpl in Hst; subst s2;
    [|by intros [= <- <-]].
  unfold bind, call. destruct (g x) as [v|]; [|by intros [= <- <-]].
  case_decide; [|by intros [= <- <-]].
  set (s2 := mkState _ _ _).
  pose proof (np_setitem_objects s2 (_values f) i v) as Hobj.
  pose proof (np_setitem_frame s2 (_values f) l' i v Hne) as Harr.
  destruct (np_setitem (_values f) i v s2) as [o' s3]. by intros [= <- <-].
Qed.

Lemma for_in_visit_frame (self : ref) f (g : V → pyobj V) (l' : loc)
    (xs : list Z) :
  ∀ s, objects s !! self = Some f → l' ≠ _values f →
    objects (snd (for_in xs (visit self g) s)) = objects s ∧
    arrays (snd (for_in xs (visit self g) s)) !! l' = arrays s !! l'.
Proof.
  induction xs as [|i xs IH]; intros s Hf Hne; [done|].
  simpl. unfold bind.
  destruct (visit_frame s self f g i l' Hf Hne) as [Hobj Harr].
  destruct (visit self g i s) as [[[]|e] s1]; simpl in *; [|done].
  destruct (IH s1) as [Hobj' Harr']; [congruence|done|].
  split; congruence.
Qed.

(** A write through [set], [for_each] or [at] on a field reaches the array
    of that field only. *)
Lemma mutation_frame s (r : ref) fr (l' : loc) :
  objects s !! r = Some fr → l' ≠ _values fr →
  (∀ index value,
     objects (snd (Field_setitem r index value s)) = objects s ∧
     arrays (snd (Field_setitem r index value s)) !! l' = arrays s !! l') ∧
  (∀ func,
     objects (snd (Field_for_each r func s)) = objects s ∧
     arrays (snd (Field_for_each r func s)) !! l' = arrays s !! l') ∧
  (∀ indexes func,
     objects (snd (Field_at r indexes func s)) = objects s ∧
     arrays (snd (Field_at r indexes func s)) !! l' = arrays s !! l').
Proof.
  intros Hr Hne. split; [|split].
  - intros index value. unfold Field_setitem, bind.
    rewrite (get_object_run _ _ _ Hr). case_decide; [done|].
    split; [apply np_setitem_objects | by apply np_setitem_frame].
  - intros [g|]; [|done]. unfold Field_for_each, bind.
    rewrite (get_object_run _ _ _ Hr). by eapply for_in_visit_frame.
  - intros indexes [g|]; [|done]. destruct indexes as [|x rest]; [done|].
    assert (Field_at r (x :: rest) (Callable g) s =
            (if (foldl Z.min x rest <? 0) || (foldl Z.max x rest >=? _num_vars fr)
             then raise IndexError
             else for_in (x :: rest) (visit r g)) s) as ->.
    { unfold Field_at, bind. simpl. by rewrite (get_object_run _ _ _ Hr). }
    destruct (_ || _); [done|]. by eapply for_in_visit_frame.
Qed.

Lemma new_field_separate s s' (r : ref) (c : FieldClass) (n : Z) (d : V) vals
    (a : ref) fa va :
  new_field s s' r c n d vals →
  objects s !! a = Some fa → arrays s !! _values fa = Some va →
  (∀ index value j,
     fst (Field_getitem a j (snd (Field_setitem r index value s')))
     = fst (Field_getitem a j s)) ∧
  (∀ func j,
     fst (Field_getitem a j (snd (Field_for_each r func s')))
     = fst (Field_getitem a j s)) ∧
  (∀ indexes func j,
     fst (Field_getitem a j (snd (Field_at r indexes func s')))
     = fst (Field_getitem a j s)).
Proof.
  intros (Hobj & Harr & _ & Hnew & l & Hl & Hr & _) Ha Hva.
  assert (_values fa ≠ l) as Hne by congruence.
  pose proof (lookup_weaken _ _ _ _ Ha Hobj) as Ha'.
  pose proof (lookup_weaken _ _ _ _ Hva Harr) as Hva'.
  destruct (mutation_frame s' r _ (_values fa) Hr Hne) as (Hset & Heach & Hat).
  assert (∀ s'', objects s'' = objects s' →
            arrays s'' !! _values fa = arrays s' !! _values fa →
            ∀ j, fst (Field_getitem a j s'') = fst (Field_getitem a j s)) as Hsame.
  { intros s'' Ho Harr'' j.
    rewrite (Field_getitem_run s a fa va j Ha Hva).
    by rewrite (Field_getitem_run s'' a fa va j) by congruence. }
  split; [|split].
  - intros index value j. by apply Hsame; apply Hset.
  - intros func j. by apply Hsame; apply Heach.
  - intros indexes func j. by apply Hsame; apply Hat.
Qed.

(** The field an operator returns shares no storage with the fields that
    existed: whatever is then written into it through [set], [for_each] or
    [at], every earlier field reads as it did before the operator ran. *)
Theorem operator_result_is_separate (c : arith_call V) s (r : ref) s'
    (a : ref) fa va :
  perform_arith c s = (Ok r, s') →
  objects s !! a = Some fa → arrays s !! _values fa = Some va →
  (∀ index value j,
     fst (Field_getitem a j (snd (Field_setitem r index value s')))
     = fst (Field_getitem a j s)) ∧
  (∀ func j,
     fst (Field_getitem a j (snd (Field_for_each r func s')))
     = fst (Field_getitem a j s)) ∧
  (∀ indexes func j,
     fst (Field_getitem a j (snd (Field_at r indexes func s')))
     = fst (Field_getitem a j s)).
Proof.
  intros (cl & n & d & vals & Hnew)%perform_arith_fresh.
  by eapply new_field_separate.
Qed.

(** A constructed field is a new object with a new array of [count] slots,
    so it shares no storage either: nothing that existed is changed by the
    construction or by later writes into the new field. *)
Theorem constructed_field_is_separate (c : FieldClass) (n : Z) (d : V) s
    (r : ref) s' (a : ref) fa va :
  Field_init c n d s = (Ok r, s') →
  objects s !! a = Some fa → arrays s !! _values fa = Some va →
  new_field s s' r c n d (replicate (Z.to_nat n) d) ∧
  (∀ index value j,
     fst (Field_getitem a j (snd (Field_setitem r index value s')))
     = fst (Field_getitem a j s)) ∧
  (∀ func j,
     fst (Field_getitem a j (snd (Field_for_each r func s')))
     = fst (Field_getitem a j s)) ∧
  (∀ indexes func j,
     fst (Field_getitem a j (snd (Field_at r indexes func s')))
     = fst (Field_getitem a j s)).
Proof.
  intros Hinit Ha Hva.
  assert (new_field s s' r c n d (replicate (Z.to_nat n) d)) as Hnew.
  { destruct (Z.ltb_spec n 0) as [Hneg|Hn].
    { revert Hinit. unfold Field_init, bind, np_full.
      by destruct (Z.ltb_spec n 0); [|lia]. }
    rewrite Field_init_run in Hinit by done. injection Hinit as <- <-.
    unfold new_field. simpl.
    split; [apply insert_subseteq, fresh_object|].
    split; [apply insert_subseteq, fresh_array|].
    split; [done|]. split; [apply fresh_object|].
    exists (fresh (dom (arrays s))).
    split; [apply fresh_array|]. by rewrite !lookup_insert_eq. }
  split; [done|]. by eapply new_field_separate.
Qed.

End Separation.

(** ** Symmetry of compatibility, and fields of count zero *)

Section Edges.
Context {V : Type} `{VariableLike V}.
Implicit Types (s : State V) (f fa fb fo : FieldObj V) (vs : list V)
  (g : V → pyobj V).

Lemma compatible_sym fa fb : compatible fa fb → compatible fb fa.
Proof. intros (Hn & Ht & Hc). by repeat split. Qed.

Lemma binary_tail_ok s (a b : ref) fa fb va vb (op : V → V → V) :
  objects s !! a = Some fa → objects s !! b = Some fb →
  arrays s !! _values fa = Some va → arrays s !! _values fb = Some vb →
  0 ≤ _num_vars fa →
  length va = Z.to_nat (_num_vars fa) → length vb = Z.to_nat (_num_vars fb) →
  compatible fa fb →
  ∃ r s',
    (try_except (Field_check_fields_compatible a b) reraise_TypeError;;
     f ← get_object a;
     fo ← get_object b;
     result ← Field_init (cls f) (_num_vars f) (_default f);
     l ← np_binary op (_values f) (_values fo);
     set_values result l;; ret result)%py s = (Ok r, s').
Proof.
  intros Ha Hb Hva Hvb Hn Hla Hlb Hc.
  unfold bind at 1, try_except.
  rewrite (check_compatible_ok s a b fa fb Ha Hb Hc).
  unfold bind at 1. rewrite (get_object_run _ _ _ Ha).
  unfold bind at 1. rewrite (get_object_run _ _ _ Hb).
  destruct (result_field_run s (cls fa) (_num_vars fa) (_default fa)
              (np_binary op (_values fa) (_values fb)) (zip_with op va vb) Hn)
    as (r & s' & Hrun & _); [|by eauto].
  intros s1 Hs1. destruct Hc as (Hcount & _).
  eapply np_binary_run; [by eapply lookup_weaken..|lia].
Qed.

(** Compatibility is symmetric: on two fields of the heap, [a + b] is
    refused with TypeError exactly when [b + a] is, and so for [-] and for
    [assign]. *)
Theorem compatibility_is_symmetric s (a b : ref) fa fb va vb :
  objects s !! a = Some fa → objects s !! b = Some fb →
  arrays s !! _values fa = Some va → arrays s !! _values fb = Some vb →
  0 ≤ _num_vars fa → 0 ≤ _num_vars fb →
  length va = Z.to_nat (_num_vars fa) → length vb = Z.to_nat (_num_vars fb) →
  (fst (Field_add a (OpField b) s) = Raise TypeError ↔
   fst (Field_add b (OpField a) s) = Raise TypeError) ∧
  (fst (Field_sub a (OpField b) s) = Raise TypeError ↔
   fst (Field_sub b (OpField a) s) = Raise TypeError) ∧
  (fst (Field_assign a (OpField b) s) = Raise TypeError ↔
   fst (Field_assign b (OpField a) s) = Raise TypeError).
Proof.
  intros Ha Hb Hva Hvb Hna Hnb Hla Hlb.
  destruct (decide (compatible fa fb)) as [Hc|Hnc].
  - pose proof (compatible_sym _ _ Hc) as Hc'.
    destruct (binary_tail_ok s a b fa fb va vb var_add) as (r1 & s1 & H1); try done.
    destruct (binary_tail_ok s b a fb fa vb va var_add) as (r2 & s2 & H2); try done.
    destruct (binary_tail_ok s a b fa fb va vb var_sub) as (r3 & s3 & H3); try done.
    destruct (binary_tail_ok s b a fb fa vb va var_sub) as (r4 & s4 & H4); try done.
    simpl. rewrite H1, H2, H3, H4.
    pose proof (Field_assign_field_run s a b fa fb Ha Hb Hc) as H5.
    pose proof (Field_assign_field_run s b a fb fa Hb Ha Hc') as H6.
    simpl in H5, H6. rewrite H5, H6. by repeat split.
  - assert (¬ compatible fb fa) as Hnc' by (intros Hc; by apply Hnc, compatible_sym).
    pose proof (check_incompatible s a b fa fb Ha Hb Hnc) as Hck.
    pose proof (check_incompatible s b a fb fa Hb Ha Hnc') as Hck'.
    simpl. unfold bind, try_except. rewrite Hck, Hck'.
    by repeat case_decide.
Qed.

(** A field of count zero, which the constructor accepts: [filter] and
    [field + value] raise ValueError (from [np.vectorize]), every indexed
    read or write raises IndexError, [at] raises on every index list, while
    [for_each] and iteration return without doing anything. *)
Theorem zero_length_field s (self : ref) f :
  objects s !! self = Some f →
  arrays s !! _values f = Some [] →
  _num_vars f = 0 →
  (∀ func : V → bool, Field_filter self func s = (Raise ValueError, s)) ∧
  (∀ v, var_type v = type f →
        fst (Field_add self (OpVariable v) s) = Raise ValueError ∧
        fst (Field_sub self (OpVariable v) s) = Raise ValueError) ∧
  (∀ index, Field_getitem self index s = (Raise IndexError, s)) ∧
  (∀ index value, var_type value = type f →
        Field_setitem self index value s = (Raise IndexError, s)) ∧
  (∀ indexes g, ∃ e, Field_at self indexes (Callable g) s = (Raise e, s)) ∧
  (∀ g, Field_for_each self (Callable g) s = (Ok tt, s)) ∧
  Field_iter self s = (Ok [], s).
Proof.
  intros Hf Hvs Hn.
  split; [|split; [|split; [|split; [|split; [|split]]]]].
  - intros func. unfold Field_filter, bind.
    by rewrite (get_object_run _ _ _ Hf), (read_array_run _ _ _ Hvs).
  - intros v Hty. split; simpl; unfold bind at 1;
      rewrite (get_object_run _ _ _ Hf); (case_decide; [done|]);
      unfold bind at 1; rewrite Field_init_run by lia; cbv beta iota;
      unfold bind at 1;
      (erewrite read_array_run
         by (simpl; rewrite lookup_insert_ne;
               [exact Hvs | intros Heq; pose proof (fresh_array s); congruence]));
      reflexivity.
  - intros index. rewrite (Field_getitem_run s self f [] index Hf Hvs).
    destruct (normalize_index _ _) as [k|] eqn:Hk; [|done].
    apply normalize_index_lt in Hk. simpl in Hk. lia.
  - intros index value Hty. unfold Field_setitem, bind.
    rewrite (get_object_run _ _ _ Hf). case_decide; [done|].
    unfold np_setitem, bind. rewrite (read_array_run _ _ _ Hvs).
    destruct (normalize_index _ _) as [k|] eqn:Hk; [|done].
    apply normalize_index_lt in Hk. simpl in Hk. lia.
  - intros [|x rest] g; [by exists ValueError|]. exists IndexError.
    unfold Field_at, bind. simpl. rewrite (get_object_run _ _ _ Hf), Hn.
    pose proof (foldl_min_le x rest x ltac:(left)).
    pose proof (foldl_max_ge x rest x ltac:(left)).
    destruct (Z.ltb_spec (foldl Z.min x rest) 0); [done|].
    destruct (Z.geb_spec (foldl Z.max x rest) 0); [done|lia].
  - intros g. unfold Field_for_each, bind.
    by rewrite (get_object_run _ _ _ Hf), Hn.
  - apply (Field_iter_run s self f [] Hf Hvs). by rewrite Hn.
Qed.

End Edges.

(** ** The theorems above at concrete heaps *)

Lemma well_formed_invariant_witness :
  well_formed
    (run_program [Mutation (CallNew CellField 3 (scalar 1));
                  Mutation (CallNew CellField 3 (scalar 2));
                  Arithmetic (CallAdd 0%nat (OpField 1%nat));
                  Mutation (CallAssign 1%nat (OpField 0%nat));
                  Mutation (CallSet 1%nat (-1) (scalar 9));
                  Arithmetic (CallDiv 0%nat (OpVariable (scalar 2)));
                  Arithmetic (CallSub 0%nat (OpVariable (Vector 1 1 1)))]
       (@empty_state Variable_)).
Proof.
  exact (proj2 (@well_formed_invariant Variable_ _ _) _ _
           (proj1 (@well_formed_invariant Variable_ _ _))).
Defined.

Lemma attributes_never_change_witness :
  let s := snd (counting_field 3 empty_state) in
  let f := mkField CellField 3 (scalar 1) 0%nat in
  let cs := [Mutation (CallNew FaceField 3 (scalar 2));
             Mutation (CallAssign 0%nat (OpVariable (scalar 7)));
             Arithmetic (CallNeg 0%nat);
             Mutation (CallForEach 0%nat (Callable plus_one))] in
  ∃ f', objects (run_program cs s) !! 0%nat = Some f' ∧
        Field_len 0%nat (run_program cs s) = (Ok (_num_vars f), run_program cs s) ∧
        domain f' = domain f ∧ type f' = type f ∧ _default f' = _default f.
Proof.
  intros s f cs. exact (attributes_never_change cs s 0%nat f eq_refl).
Defined.

Lemma Field_setitem_then_getitem_witness :
  let s := snd (counting_field 3 empty_state) in
  let f := mkField CellField 3 (scalar 1) 0%nat in
  let vs := [scalar 1; scalar 2; scalar 3] in
  ∃ s',
    Field_setitem 0%nat (-1) (scalar 9) s = (Ok tt, s') ∧
    objects s' = objects s ∧
    Field_getitem 0%nat (-1) s' = (Ok (scalar 9), s') ∧
    Field_getitem 0%nat ((-1) `mod` Z.of_nat (length vs)) s' = (Ok (scalar 9), s') ∧
    (∀ j, 0 ≤ j < Z.of_nat (length vs) →
          j ≠ (-1) `mod` Z.of_nat (length vs) →
          fst (Field_getitem 0%nat j s') = fst (Field_getitem 0%nat j s)) ∧
    (∀ (other : ref) fo (j : Z),
       objects s !! other = Some fo → _values fo ≠ _values f →
       fst (Field_getitem other j s') = fst (Field_getitem other j s)).
Proof.
  intros s f vs.
  exact (Field_setitem_then_getitem s 0%nat f vs (-1) (scalar 9)
           eq_refl eq_refl eq_refl ltac:(simpl; lia)).
Defined.

Lemma Field_setitem_out_of_range_witness :
  let s := snd (counting_field 3 empty_state) in
  Field_setitem 0%nat 3 (scalar 9) s = (Raise IndexError, s).
Proof.
  intros s.
  exact (Field_setitem_out_of_range s 0%nat (mkField CellField 3 (scalar 1) 0%nat)
           [scalar 1; scalar 2; scalar 3] 3 (scalar 9)
           eq_refl eq_refl eq_refl ltac:(simpl; lia)).
Defined.

Lemma Field_iter_spec_witness :
  let s := snd (counting_field 3 empty_state) in
  Field_iter 0%nat s = (Ok [scalar 1; scalar 2; scalar 3], s).
Proof.
  intros s.
  exact (Field_iter_spec s 0%nat (mkField CellField 3 (scalar 1) 0%nat)
           [scalar 1; scalar 2; scalar 3] eq_refl eq_refl eq_refl).
Defined.

Lemma Field_for_each_spec_witness :
  let s := snd (counting_field 3 empty_state) in
  let f := mkField CellField 3 (scalar 1) 0%nat in
  let vs := [scalar 1; scalar 2; scalar 3] in
  ∃ s' log,
    Field_for_each 0%nat (Callable plus_one) s = (Ok tt, s') ∧
    objects s' = objects s ∧
    arrays s' = <[_values f := write_back f plus_one <$> vs]> (arrays s) ∧
    calls s' = calls s ++ log ∧
    log.*1 = range (_num_vars f) ∧ log.*2 = vs.
Proof.
  intros s f vs.
  exact (Field_for_each_spec s 0%nat f vs plus_one eq_refl eq_refl eq_refl).
Defined.

Lemma Field_at_spec_witness :
  let s := snd (counting_field 5 empty_state) in
  let f := mkField CellField 5 (scalar 1) 0%nat in
  let vs := [scalar 1; scalar 2; scalar 3; scalar 4; scalar 5] in
  ∃ s' vs',
    Field_at 0%nat [1; 3] (Callable plus_one) s = (Ok tt, s') ∧
    objects s' = objects s ∧
    arrays s' = <[_values f := vs']> (arrays s) ∧
    length vs' = length vs ∧
    (∀ k : nat, Z.of_nat k ∉ [1; 3] → vs' !! k = vs !! k) ∧
    (NoDup [1; 3] →
       ∀ k : nat, Z.of_nat k ∈ [1; 3] →
                  vs' !! k = write_back f plus_one <$> vs !! k).
Proof.
  intros s f vs.
  apply (Field_at_spec s 0%nat f vs [1; 3] plus_one eq_refl eq_refl eq_refl).
  - discriminate.
  - intros i Hi. simpl.
    apply elem_of_cons in Hi as [->|Hi]; [lia|].
    apply list_elem_of_singleton in Hi as ->. lia.
Defined.

Lemma incompatible_fields_refused_witness :
  let s := snd ((a ← counting_field 3; Field_init FaceField 2 (scalar 1))%py
                  empty_state) in
  Field_assign 0%nat (OpField 1%nat) s = (Raise TypeError, s) ∧
  Field_add 0%nat (OpField 1%nat) s = (Raise TypeError, s) ∧
  Field_sub 0%nat (OpField 1%nat) s = (Raise TypeError, s) ∧
  (3 ≠ 2 → Field_check_fields_compatible 0%nat 1%nat s = (Raise ValueError, s)).
Proof.
  intros s.
  apply (incompatible_fields_refused s 0%nat 1%nat
           (mkField CellField 3 (scalar 1) 0%nat)
           (mkField FaceField 2 (scalar 1) 1%nat) eq_refl eq_refl).
  intros (Hn & _). simpl in Hn. lia.
Defined.

Lemma Field_assign_field_spec_witness :
  let s := snd ((a ← counting_field 3; Field_init CellField 3 (scalar 0))%py
                  empty_state) in
  let vo := [scalar 1; scalar 2; scalar 3] in
  let fo := mkField CellField 3 (scalar 1) 0%nat in
  ∃ s',
    Field_assign 1%nat (OpField 0%nat) s = (Ok tt, s') ∧
    arrays s' = arrays s ∧
    (∀ j, fst (Field_getitem 1%nat j s') = fst (Field_getitem 0%nat j s)) ∧
    (∀ (index : Z) (value : Variable_),
       var_type value = type fo →
       - Z.of_nat (length vo) ≤ index < Z.of_nat (length vo) →
       (∃ s'', Field_setitem 0%nat index value s' = (Ok tt, s'') ∧
               Field_getitem 1%nat index s'' = (Ok value, s'')) ∧
       (∃ s'', Field_setitem 1%nat index value s' = (Ok tt, s'') ∧
               Field_getitem 0%nat index s'' = (Ok value, s''))).
Proof.
  intros s vo fo.
  apply (Field_assign_field_spec s 1%nat 0%nat
           (mkField CellField 3 (scalar 0) 1%nat) fo vo eq_refl eq_refl eq_refl).
  repeat split.
Defined.

Lemma Field_assign_variable_spec_witness :
  let s := snd (counting_field 3 empty_state) in
  let f := mkField CellField 3 (scalar 1) 0%nat in
  ∃ s',
    Field_assign 0%nat (OpVariable (scalar 7)) s = (Ok tt, s') ∧
    Field_iter 0%nat s' = (Ok (replicate (Z.to_nat (_num_vars f)) (scalar 7)), s') ∧
    Field_len 0%nat s' = (Ok (_num_vars f), s') ∧
    (∀ (other : ref) fo vo,
       other ≠ 0%nat → objects s !! other = Some fo →
       arrays s !! _values fo = Some vo →
       objects s' !! other = Some fo ∧ arrays s' !! _values fo = Some vo ∧
       ∀ (index : Z) (value : Variable_),
         fst (Field_getitem other index (snd (Field_setitem 0%nat index value s')))
         = fst (Field_getitem other index s)).
Proof.
  intros s f.
  exact (Field_assign_variable_spec s 0%nat f (scalar 7)
           eq_refl ltac:(simpl; lia) eq_refl).
Defined.

Lemma Field_add_sub_variable_spec_witness :
  let s := snd (counting_field 3 empty_state) in
  let f := mkField CellField 3 (scalar 1) 0%nat in
  let vs := [scalar 1; scalar 2; scalar 3] in
  arith_result s [0%nat] f ((λ x, var_add x (scalar 10)) <$> vs)
    (Field_add 0%nat (OpVariable (scalar 10)) s) ∧
  arith_result s [0%nat] f ((λ x, var_sub x (scalar 10)) <$> vs)
    (Field_sub 0%nat (OpVariable (scalar 10)) s) ∧
  Field_add 0%nat (OpVariable (Vector 1 1 1)) s = (Raise TypeError, s) ∧
  Field_sub 0%nat (OpVariable (Vector 1 1 1)) s = (Raise TypeError, s).
Proof.
  intros s f vs.
  destruct (Field_add_sub_variable_spec s 0%nat f vs (scalar 10)
              eq_refl eq_refl ltac:(simpl; lia) eq_refl) as (Hok & _ & _).
  destruct (Field_add_sub_variable_spec s 0%nat f vs (Vector 1 1 1)
              eq_refl eq_refl ltac:(simpl; lia) eq_refl) as (_ & Hbad & _).
  destruct (Hok eq_refl) as [Hadd Hsub].
  destruct (Hbad ltac:(discriminate)) as [Hadd' Hsub'].
  exact (conj Hadd (conj Hsub (conj Hadd' Hsub'))).
Defined.

Lemma Field_scaling_spec_witness :
  let s := snd (counting_field 3 empty_state) in
  let f := mkField CellField 3 (scalar 1) 0%nat in
  let vs := [scalar 1; scalar 2; scalar 3] in
  let halves := [Scalar (Q2Qc (1 # 2)); scalar 1; Scalar (Q2Qc (3 # 2))] in
  arith_result s [0%nat] f ((λ x, var_mul x (scalar 2)) <$> vs)
    (Field_mul 0%nat (OpVariable (scalar 2)) s) ∧
  arith_result s [0%nat] f halves
    (Field_truediv 0%nat (OpVariable (scalar 2)) s) ∧
  fst (Field_truediv 0%nat (OpVariable (scalar 0)) s) = Raise ZeroDivisionError ∧
  (∀ other, is_Scalar other = None →
            Field_truediv 0%nat other s = (Raise TypeError, s)).
Proof.
  intros s f vs halves.
  destruct (@Field_scaling_spec Variable_ Variable_like Variable_div
              s 0%nat f vs (scalar 2)
              eq_refl eq_refl ltac:(simpl; lia) eq_refl)
    as (Hmul & Hdiv & _ & Hrefuse).
  destruct (@Field_scaling_spec Variable_ Variable_like Variable_div
              s 0%nat f vs (scalar 0)
              eq_refl eq_refl ltac:(simpl; lia) eq_refl)
    as (_ & _ & Hzero & _).
  split; [exact Hmul|]. split.
  - apply Hdiv. unfold vs, halves.
    constructor; [|constructor; [|constructor; [|constructor]]];
      vm_compute; do 2 f_equal; apply Qc_is_canon; vm_compute; reflexivity.
  - split; [|exact Hrefuse].
    apply (Hzero ZeroDivisionError). vm_compute. reflexivity.
Defined.

Lemma operators_only_allocate_witness :
  let s := snd (counting_field 3 empty_state) in
  let res := perform_arith (CallNeg 0%nat) s in
  ∃ cl n d vals, new_field s (snd res) 1%nat cl n d vals.
Proof.
  intros s res.
  apply (operators_only_allocate (CallNeg 0%nat) s 1%nat (snd res)).
  vm_compute. reflexivity.
Defined.

Lemma operator_result_is_separate_witness :
  let s := snd (counting_field 3 empty_state) in
  let res := perform_arith (CallMul 0%nat (OpVariable (scalar 2))) s in
  (∀ index value j,
     fst (Field_getitem 0%nat j (snd (Field_setitem 1%nat index value (snd res))))
     = fst (Field_getitem 0%nat j s)) ∧
  (∀ func j,
     fst (Field_getitem 0%nat j (snd (Field_for_each 1%nat func (snd res))))
     = fst (Field_getitem 0%nat j s)) ∧
  (∀ indexes func j,
     fst (Field_getitem 0%nat j (snd (Field_at 1%nat indexes func (snd res))))
     = fst (Field_getitem 0%nat j s)).
Proof.
  intros s res.
  apply (operator_result_is_separate (CallMul 0%nat (OpVariable (scalar 2)))
           s 1%nat (snd res) 0%nat (mkField CellField 3 (scalar 1) 0%nat)
           [scalar 1; scalar 2; scalar 3]).
  - vm_compute. reflexivity.
  - reflexivity.
  - reflexivity.
Defined.

Lemma constructed_field_is_separate_witness :
  let s := snd (counting_field 3 empty_state) in
  let res := Field_init FaceField 2 (scalar 0) s in
  new_field s (snd res) 1%nat FaceField 2 (scalar 0)
    (replicate (Z.to_nat 2) (scalar 0)) ∧
  (∀ index value j,
     fst (Field_getitem 0%nat j (snd (Field_setitem 1%nat index value (snd res))))
     = fst (Field_getitem 0%nat j s)) ∧
  (∀ func j,
     fst (Field_getitem 0%nat j (snd (Field_for_each 1%nat func (snd res))))
     = fst (Field_getitem 0%nat j s)) ∧
  (∀ indexes func j,
     fst (Field_getitem 0%nat j (snd (Field_at 1%nat indexes func (snd res))))
     = fst (Field_getitem 0%nat j s)).
Proof.
  intros s res.
  apply (constructed_field_is_separate FaceField 2 (scalar 0) s 1%nat (snd res)
           0%nat (mkField CellField 3 (scalar 1) 0%nat)
           [scalar 1; scalar 2; scalar 3]).
  - vm_compute. reflexivity.
  - reflexivity.
  - reflexivity.
Defined.

Lemma compatibility_is_symmetric_witness :
  let s := snd ((a ← counting_field 3; Field_init FaceField 3 (scalar 1))%py
                  empty_state) in
  (fst (Field_add 0%nat (OpField 1%nat) s) = Raise TypeError ↔
   fst (Field_add 1%nat (OpField 0%nat) s) = Raise TypeError) ∧
  (fst (Field_sub 0%nat (OpField 1%nat) s) = Raise TypeError ↔
   fst (Field_sub 1%nat (OpField 0%nat) s) = Raise TypeError) ∧
  (fst (Field_assign 0%nat (OpField 1%nat) s) = Raise TypeError ↔
   fst (Field_assign 1%nat (OpField 0%nat) s) = Raise TypeError).
Proof.
  intros s.
  exact (compatibility_is_symmetric s 0%nat 1%nat
           (mkField CellField 3 (scalar 1) 0%nat)
           (mkField FaceField 3 (scalar 1) 1%nat)
           [scalar 1; scalar 2; scalar 3] [scalar 1; scalar 1; scalar 1]
           eq_refl eq_refl eq_refl eq_refl
           ltac:(simpl; lia) ltac:(simpl; lia) eq_refl eq_refl).
Defined.

Lemma zero_length_field_witness :
  let s := snd (Field_init CellField 0 (scalar 1) empty_state) in
  let f := mkField CellField 0 (scalar 1) 0%nat in
  (∀ func : Variable_ → bool, Field_filter 0%nat func s = (Raise ValueError, s)) ∧
  (∀ v, var_type v = type f →
        fst (Field_add 0%nat (OpVariable v) s) = Raise ValueError ∧
        fst (Field_sub 0%nat (OpVariable v) s) = Raise ValueError) ∧
  (∀ index, Field_getitem 0%nat index s = (Raise IndexError, s)) ∧
  (∀ index value, var_type value = type f →
        Field_setitem 0%nat index value s = (Raise IndexError, s)) ∧
  (∀ indexes g, ∃ e, Field_at 0%nat indexes (Callable g) s = (Raise e, s)) ∧
  (∀ g, Field_for_each 0%nat (Callable g) s = (Ok tt, s)) ∧
  Field_iter 0%nat s = (Ok [], s).
Proof.
  intros s f. exact (zero_length_field s 0%nat f eq_refl eq_refl eq_refl).
Defined.
